(** * A distance-based key/value overlay (DHT.go): model and verification

    The Go program keeps a graph of [Peer] objects that point at one
    another through the buckets of their routing tables.  The model keeps
    that graph in an explicit store of peers addressed by location, and
    writes every method of [DHT] as a computation over that store, so that
    sharing and cycles between peers are those of the program. *)

From Stdlib Require Import ZArith String Ascii List Lia Permutation.
From stdpp Require Import base gmap strings list sorting pretty.

Open Scope string_scope.

(** ** Data model *)

(** [*Peer]: the nil pointer, or the location of a peer in the store. *)
Inductive PeerPtr : Type :=
| nilPtr
| ptr (a : nat).

(** [type Bucket struct { nodes []*Peer }] *)
Record Bucket : Type := mkBucket { Bucket_nodes : list PeerPtr }.

(** [type DHT struct { buckets []Bucket }] *)
Record DHT : Type := mkDHT { DHT_buckets : list Bucket }.

(** [type Peer struct { id string; buckets []Bucket; dht DHT }] *)
Record Peer : Type := mkPeer {
  Peer_id : string;
  Peer_buckets : list Bucket;
  Peer_dht : DHT
}.

(** The store: the peers allocated by the program, by location. *)
Abbreviation Heap := (gmap nat Peer).

(** [*DHT].  Every method call of the program has the form [x.dht.m(...)]
    for a peer [x], or passes the receiver [d] on, so a [*DHT] is always
    the address of the [dht] field of a peer: it is represented by the
    location of that peer. *)
Definition DHTPtr : Type := nat.

(** [const BucketSize = 16] *)
Definition BucketSize : Z := 16.

(** [func NewDHT() *DHT]: the table it builds. *)
Definition NewDHT : DHT := mkDHT [].

(** ** Computations over the store

    A call returns a value, panics (nil dereference), or is cut off by the
    recursion bound; in every case it hands the store on. *)

Inductive outcome (A : Type) : Type :=
| Ret (a : A)
| Panic
| OutOfFuel.
Arguments Ret {A} a.
Arguments Panic {A}.
Arguments OutOfFuel {A}.

Definition M (A : Type) : Type := Heap -> outcome A * Heap.

Definition ret {A} (a : A) : M A := fun h => (Ret a, h).

Definition bind {A B} (m : M A) (f : A -> M B) : M B :=
  fun h =>
    match m h with
    | (Ret a, h') => f a h'
    | (Panic, h') => (Panic, h')
    | (OutOfFuel, h') => (OutOfFuel, h')
    end.

Definition panic {A} : M A := fun h => (Panic, h).

Definition diverge {A} : M A := fun h => (OutOfFuel, h).

Notation "x <- m ;; k" := (bind m (fun x => k))
  (at level 100, m at next level, right associativity).

(** [*p] for a [*Peer]: panics on nil.  A location outside the store does
    not occur in a Go program; the model treats it like nil. *)
Definition loadPeer (p : PeerPtr) : M Peer :=
  fun h =>
    match p with
    | nilPtr => (Panic, h)
    | ptr a => match h !! a with
               | Some x => (Ret x, h)
               | None => (Panic, h)
               end
    end.

(** [*d] for a [*DHT]: the [dht] field of the peer that holds it. *)
Definition loadDHT (d : DHTPtr) : M DHT :=
  x <- loadPeer (ptr d) ;; ret (Peer_dht x).

(** [*p = x]: the one primitive that changes the store.  No method of
    DHT.go assigns through a pointer, so none of them uses it. *)
Definition storePeer (a : nat) (x : Peer) : M unit :=
  fun h => (Ret tt, <[a := x]> h).

(** ** Identifiers and distance *)

(** math/big, [nat.scan]: the value of a digit character, [MaxBase + 1]
    for any other byte. *)
Definition digitVal (ch : ascii) : Z :=
  let c := Z.of_N (N_of_ascii ch) in
  if (48 <=? c)%Z && (c <=? 57)%Z then (c - 48)%Z
  else if (97 <=? c)%Z && (c <=? 122)%Z then (c - 97 + 10)%Z
  else if (65 <=? c)%Z && (c <=? 90)%Z then (c - 65 + 10)%Z
  else 63%Z.

(** math/big, [nat.scan] for a base of at most 36: accumulates digits
    until the first byte that is not a digit of the base. *)
Fixpoint natScan (s : string) (base : Z) (z : Z) : Z :=
  match s with
  | EmptyString => z
  | String ch r =>
      let d1 := digitVal ch in
      if (base <=? d1)%Z then z else natScan r base (z * base + d1)%Z
  end.

(** math/big, [z.SetString(s, base)] on a fresh [z], result ignored: the
    value left in [z].  An optional sign is read, then the digits; when the
    text is not wholly a number the program still goes on with [z], which
    holds the digits scanned so far. *)
Definition SetString (s : string) (base : Z) : Z :=
  match s with
  | EmptyString => 0%Z
  | String ch r =>
      if Ascii.eqb ch "-" then (- natScan r base 0)%Z
      else if Ascii.eqb ch "+" then natScan r base 0%Z
      else natScan s base 0%Z
  end.

(** Conversion of an integer to Go's [int64]: two's complement wrap. *)
Definition wrap64 (z : Z) : Z := ((z + 2 ^ 63) mod 2 ^ 64 - 2 ^ 63)%Z.

(** math/big, [x.Int64()]: the low 64 bits of the magnitude as an
    [int64], negated when [x] is negative. *)
Definition Int64 (x : Z) : Z :=
  let v := wrap64 (Z.abs x mod 2 ^ 64) in
  if (x <? 0)%Z then wrap64 (- v) else v.

(** [func (d *DHT) calculateDistance(id1 string, id2 string) int]; the
    receiver is not used.  [int] is 64 bits wide. *)
Definition calculateDistance (id1 id2 : string) : Z :=
  let num1 := SetString id1 16 in
  let num2 := SetString id2 16 in
  let distance := Z.lxor num1 num2 in
  Int64 distance.

(** [func min(x, y int) int] *)
Definition min (x y : Z) : Z := if (x <? y)%Z then x else y.

(** ** Table queries *)

(** [func (d *DHT) findOwnNode() *Peer] *)
Definition findOwnNode (d : DHTPtr) : M PeerPtr :=
  t <- loadDHT d ;;
  match DHT_buckets t with
  | [] => ret nilPtr
  | b :: _ =>
      match Bucket_nodes b with
      | [] => ret nilPtr
      | n :: _ => ret n
      end
  end.

(** The inner loop of [containsKey], over the nodes of one bucket. *)
Fixpoint containsKey_nodes (nodes : list PeerPtr) (key : string) : M bool :=
  match nodes with
  | [] => ret false
  | peer :: rest =>
      x <- loadPeer peer ;;
      if String.eqb (Peer_id x) key then ret true
      else containsKey_nodes rest key
  end.

(** The outer loop of [containsKey], over the buckets. *)
Fixpoint containsKey_buckets (bs : list Bucket) (key : string) : M bool :=
  match bs with
  | [] => ret false
  | bucket :: rest =>
      found <- containsKey_nodes (Bucket_nodes bucket) key ;;
      if found then ret true else containsKey_buckets rest key
  end.

(** [func (d *DHT) containsKey(key string) bool] *)
Definition containsKey (d : DHTPtr) (key : string) : M bool :=
  t <- loadDHT d ;; containsKey_buckets (DHT_buckets t) key.

(** ** Nearest-peer selection *)

(** The inner loop of the insertion sort of package sort: the element [x]
    moves towards the front while it is less than its predecessor.  The
    sorted part is given back to front. *)
Fixpoint sink (less : PeerPtr -> PeerPtr -> M bool) (x : PeerPtr)
    (sorted_rev : list PeerPtr) : M (list PeerPtr) :=
  match sorted_rev with
  | [] => ret [x]
  | y :: r =>
      lt <- less x y ;;
      if lt then (r' <- sink less x r ;; ret (y :: r'))
      else ret (x :: y :: r)
  end.

(** The outer loop of the insertion sort. *)
Fixpoint insertionSort (less : PeerPtr -> PeerPtr -> M bool)
    (sorted_rev todo : list PeerPtr) : M (list PeerPtr) :=
  match todo with
  | [] => ret (rev sorted_rev)
  | x :: rest =>
      sorted_rev' <- sink less x sorted_rev ;;
      insertionSort less sorted_rev' rest
  end.

(** [sort.SliceStable(nodes, less)]: package sort sorts by insertion (in
    blocks of twenty that it then merges, keeping equal elements in their
    original order); the model is the insertion sort, and returns the
    sorted slice. *)
Definition SliceStable (nodes : list PeerPtr)
    (less : PeerPtr -> PeerPtr -> M bool) : M (list PeerPtr) :=
  insertionSort less [] nodes.

(** [func (d *DHT) sortPeerSlice(nodes []*Peer, by func(p1, p2 *Peer) bool)]
    with [peerSorter.sort]. *)
Definition sortPeerSlice (nodes : list PeerPtr)
    (by_ : PeerPtr -> PeerPtr -> M bool) : M (list PeerPtr) :=
  SliceStable nodes by_.

(** The comparison closure passed to [sortPeerSlice] by
    [findNearestNodes]. *)
Definition closer (key : string) (p1 p2 : PeerPtr) : M bool :=
  x1 <- loadPeer p1 ;;
  let distanceA := calculateDistance (Peer_id x1) key in
  x2 <- loadPeer p2 ;;
  let distanceB := calculateDistance (Peer_id x2) key in
  if negb (distanceA =? distanceB)%Z then ret (distanceA <? distanceB)%Z
  else ret (String.ltb (Peer_id x1) (Peer_id x2)).

(** The loop of [findNearestNodes] that keeps the nodes at most as far
    from the key as the own node. *)
Fixpoint keepNear (key : string) (distanceToKey : Z)
    (sortedNodes : list PeerPtr) : M (list PeerPtr) :=
  match sortedNodes with
  | [] => ret []
  | node :: rest =>
      x <- loadPeer node ;;
      let distance := calculateDistance (Peer_id x) key in
      nearestNodes <- keepNear key distanceToKey rest ;;
      if (distance <=? distanceToKey)%Z then ret (node :: nearestNodes)
      else ret nearestNodes
  end.

(** [func (d *DHT) findNearestNodes(key string) []*Peer] *)
Definition findNearestNodes (d : DHTPtr) (key : string) : M (list PeerPtr) :=
  ownNode <- findOwnNode d ;;
  match ownNode with
  | nilPtr => ret []
  | _ =>
      own <- loadPeer ownNode ;;
      let distanceToKey := calculateDistance (Peer_id own) key in
      t <- loadDHT d ;;
      let allNodes := concat (map Bucket_nodes (DHT_buckets t)) in
      sortedNodes <- sortPeerSlice allNodes (closer key) ;;
      nearestNodes <- keepNear key distanceToKey sortedNodes ;;
      ret (firstn (Z.to_nat (min 2 (Z.of_nat (length nearestNodes))))
             nearestNodes)
  end.

(** ** Store and retrieve *)

(** [for _, node := range nearestNodes] in [getValue]: the first answer
    that is not the empty string, the empty string if there is none.
    [get] is the recursive call on a node's table. *)
Fixpoint getValue_loop (get : DHTPtr -> M string) (nearestNodes : list PeerPtr)
    : M string :=
  match nearestNodes with
  | [] => ret ""
  | node :: rest =>
      match node with
      | nilPtr => panic
      | ptr a =>
          value <- get a ;;
          if negb (String.eqb value "") then ret value
          else getValue_loop get rest
      end
  end.

(** [func (d *DHT) getValue(key string) string].  Every call spends one
    unit of the recursion bound [fuel]. *)
Fixpoint getValue (fuel : nat) (d : DHTPtr) (key : string) : M string :=
  match fuel with
  | O => diverge
  | S fuel' =>
      ownNode <- findOwnNode d ;;
      let forward :=
        nearestNodes <- findNearestNodes d key ;;
        getValue_loop (fun a => getValue fuel' a key) nearestNodes in
      match ownNode with
      | nilPtr => forward
      | ptr own =>
          held <- containsKey own key ;;
          if held then getValue fuel' own key else forward
      end
  end.

(** [for _, node := range nearestNodes] in [setValue]; [set] is the
    recursive call on a node's table, whose result is dropped. *)
Fixpoint setValue_loop (set : DHTPtr -> M bool) (nearestNodes : list PeerPtr)
    : M unit :=
  match nearestNodes with
  | [] => ret tt
  | node :: rest =>
      match node with
      | nilPtr => panic
      | ptr a => _ <- set a ;; setValue_loop set rest
      end
  end.

(** One hexadecimal digit in lower case, as [%x] prints it. *)
Definition hexDigit (n : N) : ascii :=
  if (n <? 10)%N then ascii_of_N (48 + n) else ascii_of_N (87 + n).

(** [fmt.Sprintf("%x", hash)] on a byte array: two digits per byte. *)
Fixpoint Sprintf_x (hash : string) : string :=
  match hash with
  | EmptyString => EmptyString
  | String c r =>
      String (hexDigit (N_of_ascii c / 16))
        (String (hexDigit (N_of_ascii c mod 16)) (Sprintf_x r))
  end.

Section Hashing.

(** [md5.Sum] of package crypto/md5, from the bytes of a string to the
    sixteen bytes of the digest. *)
Variable md5_Sum : string -> string.

(** [func (d *DHT) hashValue(value string) string]; the receiver is not
    used. *)
Definition hashValue (value : string) : string :=
  let hash := md5_Sum value in
  Sprintf_x hash.

(** [func (d *DHT) setValue(key string, value string) bool].  Every call
    spends one unit of the recursion bound [fuel]. *)
Fixpoint setValue (fuel : nat) (d : DHTPtr) (key value : string) : M bool :=
  match fuel with
  | O => diverge
  | S fuel' =>
      let hash := hashValue key in
      if negb (String.eqb key hash) then ret false
      else
        ownNode <- findOwnNode d ;;
        let forward :=
          nearestNodes <- findNearestNodes d key ;;
          _ <- setValue_loop (fun a => setValue fuel' a key value)
                 nearestNodes ;;
          ret true in
        match ownNode with
        | nilPtr => forward
        | ptr own =>
            held <- containsKey own key ;;
            if held then ret true
            else _ <- setValue fuel' own key value ;; forward
        end
  end.

End Hashing.

(** ** Notions used in the statements *)

(** A computation that hands the store on as it received it. *)
Definition readonly {A} (m : M A) : Prop := forall h, snd (m h) = h.

(** A pointer to a peer of the store. *)
Definition validPtr (h : Heap) (p : PeerPtr) : Prop :=
  exists a x, p = ptr a /\ h !! a = Some x.

(** All the pointers kept in a table. *)
Definition allNodes (t : DHT) : list PeerPtr :=
  concat (map Bucket_nodes (DHT_buckets t)).

(** The entry that [findOwnNode] reads: the head of the first bucket. *)
Definition firstEntry (t : DHT) : PeerPtr :=
  default nilPtr (b ← head (DHT_buckets t); head (Bucket_nodes b)).

(** A pointer to a peer at most [dist] away from the key. *)
Definition within (h : Heap) (key : string) (dist : Z) (p : PeerPtr) : Prop :=
  exists a x, p = ptr a /\ h !! a = Some x /\
              (calculateDistance (Peer_id x) key <= dist)%Z.

(** What [findNearestNodes] does once the own node is known. *)
Definition selectNearest (key : string) (distanceToKey : Z)
    (nodes : list PeerPtr) : M (list PeerPtr) :=
  sortedNodes <- sortPeerSlice nodes (closer key) ;;
  nearestNodes <- keepNear key distanceToKey sortedNodes ;;
  ret (firstn (Z.to_nat (min 2 (Z.of_nat (length nearestNodes))))
         nearestNodes).

(** A store in which every pointer kept in a table points to a peer, as
    in a Go program that never puts nil in a bucket. *)
Definition closed (h : Heap) : Prop :=
  forall a x, h !! a = Some x -> Forall (validPtr h) (allNodes (Peer_dht x)).

(** [forwards h key d d']: a call of [getValue] for [key] on the table [d]
    calls [getValue] on the table [d'] next: the own node's table when
    it holds the key, a selected nearest node's table otherwise. *)
Definition forwards (h : Heap) (key : string) (d d' : DHTPtr) : Prop :=
  exists o,
    findOwnNode d h = (Ret (ptr o), h) /\
    ((containsKey o key h = (Ret true, h) /\ d' = o) \/
     (containsKey o key h = (Ret false, h) /\
      exists l, findNearestNodes d key h = (Ret l, h) /\ ptr d' ∈ l)).

(** The self peer in the words of the specification: the first entry of
    the first bucket that is not empty, none if there is no such bucket. *)
Fixpoint Self_spec (bs : list Bucket) : option PeerPtr :=
  match bs with
  | [] => None
  | b :: rest =>
      match Bucket_nodes b with
      | [] => Self_spec rest
      | n :: _ => Some n
      end
  end.

(** Whether a table entry stands for a key: the test of [containsKey] on
    one node. *)
Definition holdsKey (h : Heap) (key : string) (p : PeerPtr) : bool :=
  match p with
  | nilPtr => false
  | ptr a =>
      match h !! a with
      | Some y => String.eqb (Peer_id y) key
      | None => false
      end
  end.

(** The number of entries of a table that stand for a key. *)
Definition keyEntries (h : Heap) (d : DHTPtr) (key : string) : nat :=
  match h !! d with
  | Some x => length (List.filter (holdsKey h key) (allNodes (Peer_dht x)))
  | None => 0
  end.

(** ** Stores used in the examples *)

(** A peer with a given identifier and table, and no buckets of its own. *)
Definition mkNode (id : string) (table : list (list PeerPtr)) : Peer :=
  mkPeer id [] (mkDHT (map mkBucket table)).

(** Identifier width 32 bits: A (0x0F) at location 0, B (0x05) at 1 and
    C (0x0A) at 2, with the tables given. *)
Definition scenario (tA tB tC : DHT) : Heap :=
  <[0%nat := mkPeer "0000000f" [] tA]>
    (<[1%nat := mkPeer "00000005" [] tB]>
       (<[2%nat := mkPeer "0000000a" [] tC]> ∅)).

(** Two peers that know each other: A's table is [A, B] and B's table is
    [B, A]. *)
Definition cycle2 : Heap :=
  <[0%nat := mkNode "1" [[ptr 0; ptr 1]]]>
    (<[1%nat := mkNode "2" [[ptr 1; ptr 0]]]> ∅).

(** Two peers that know each other and whose tables start with an empty
    bucket. *)
Definition cycle2_no_own : Heap :=
  <[0%nat := mkNode "1" [[]; [ptr 1]]]>
    (<[1%nat := mkNode "2" [[]; [ptr 0]]]> ∅).

(** One peer with the table of [NewDHT], as every peer of [main] has. *)
Definition lonely : Heap := <[0%nat := mkPeer "1" [] NewDHT]> ∅.

(** A digest function with a fixed point: sixteen zero bytes, whatever the
    input, printed as thirty-two zeros. *)
Definition zeroSum (_ : string) : string :=
  string_of_list_ascii (repeat zero 16).

Definition zeroKey : string := "00000000000000000000000000000000".

(** Two peers A (location 0) and B (1) that know each other and two
    closer peers C (2) and D (3) with the table of [NewDHT]; each table
    starts with its owner. *)
Definition cycle2_converging : Heap :=
  <[0%nat := mkNode "4" [[ptr 0; ptr 1; ptr 2; ptr 3]]]>
    (<[1%nat := mkNode "8" [[ptr 1; ptr 0; ptr 2; ptr 3]]]>
       (<[2%nat := mkPeer "1" [] NewDHT]>
          (<[3%nat := mkPeer "2" [] NewDHT]> ∅))).

(** A bound on the depth of the calls from each peer of
    [cycle2_converging]. *)
Definition depth_converging (d : DHTPtr) : nat :=
  if (d <? 2)%nat then 1%nat else 0%nat.

(** ** Further notions *)

(** The number that a sequence of bytes spells, most significant byte
    first, on top of an accumulator. *)
Fixpoint bytesValue (bytes : string) (z : Z) : Z :=
  match bytes with
  | EmptyString => z
  | String c r => bytesValue r (z * 256 + Z.of_N (N_of_ascii c))%Z
  end.

(** A lower-case hexadecimal digit. *)
Definition isLowerHex (c : ascii) : bool :=
  let n := N_of_ascii c in
  ((48 <=? n)%N && (n <=? 57)%N) || ((97 <=? n)%N && (n <=? 102)%N).



(** ** The driver: [main] and its helpers

    [main] allocates peers, draws random numbers and prints.  Its world is
    the store, the next free location, the source of random numbers and the
    text printed so far. *)

Record World : Type := mkWorld {
  W_heap : Heap;
  W_next : nat;
  W_rand : nat -> nat;
  W_out : list string
}.

Definition IO (A : Type) : Type := World -> outcome A * World.

Definition ioret {A} (a : A) : IO A := fun w => (Ret a, w).

Definition iobind {A B} (m : IO A) (f : A -> IO B) : IO B :=
  fun w =>
    match m w with
    | (Ret a, w') => f a w'
    | (Panic, w') => (Panic, w')
    | (OutOfFuel, w') => (OutOfFuel, w')
    end.

Definition iopanic {A} : IO A := fun w => (Panic, w).

Notation "x <<- m ;; k" := (iobind m (fun x => k))
  (at level 100, m at next level, right associativity).

(** A method of [DHT] run in the world: it works on the store. *)
Definition call {A} (m : M A) : IO A :=
  fun w =>
    let (r, h') := m (W_heap w) in
    (r, mkWorld h' (W_next w) (W_rand w) (W_out w)).

(** [&Peer{...}]: a new peer at the next free location. *)
Definition newPeer (x : Peer) : IO PeerPtr :=
  fun w =>
    (Ret (ptr (W_next w)),
     mkWorld (<[W_next w := x]> (W_heap w)) (S (W_next w)) (W_rand w)
       (W_out w)).

(** [peer.buckets = append(peer.buckets, bucket)] *)
Definition appendBucket (peer : PeerPtr) (bucket : Bucket) : IO unit :=
  x <<- call (loadPeer peer) ;;
  match peer with
  | nilPtr => iopanic
  | ptr a =>
      call (storePeer a
              (mkPeer (Peer_id x) (Peer_buckets x ++ [bucket])%list (Peer_dht x)))
  end.

(** [rand.Intn(n)]: panics unless [n] is positive; otherwise any number
    from 0 to [n - 1], here the next number of the source reduced modulo
    [n]. *)
Definition Intn (n : Z) : IO Z :=
  fun w =>
    if (n <=? 0)%Z then (Panic, w)
    else (Ret (Z.of_nat (W_rand w 0) mod n)%Z,
          mkWorld (W_heap w) (W_next w) (fun i => W_rand w (S i)) (W_out w)).

(** [fmt.Printf]: the formatted text goes to the output. *)
Definition Printf (text : string) : IO unit :=
  fun w =>
    (Ret tt, mkWorld (W_heap w) (W_next w) (W_rand w) (W_out w ++ [text])%list).

(** [fmt.Sprintf("%d", i)] *)
Definition Sprintf_d (i : Z) : string := pretty i.

(** A counting loop [for i := lo; ...; i += step] that makes [count]
    rounds and hands the loop variables [s] from round to round. *)
Fixpoint forLoop {S : Type} (count : nat) (i step : Z)
    (body : Z -> S -> IO S) (s : S) : IO S :=
  match count with
  | O => ioret s
  | Datatypes.S count' =>
      s' <<- body i s ;; forLoop count' (i + step)%Z step body s'
  end.

(** The number of rounds of [for i := lo; i < hi; i += step]. *)
Definition rounds (lo hi step : Z) : nat :=
  Z.to_nat ((hi - lo + step - 1) / step).

(** Sums and differences of Go's [int], 64 bits wide: they wrap. *)
Definition intAdd (x y : Z) : Z := wrap64 (x + y).

Definition intSub (x y : Z) : Z := wrap64 (x - y).

(** [func getRandomInt(min int, max int) int] *)
Definition getRandomInt (min max : Z) : IO Z :=
  r <<- Intn (intAdd (intSub max min) 1) ;; ioret (intAdd r min).

(** The alphabet of [generateRandomString]. *)
Definition characters : string :=
  "ABCDEFGHIJKLMNOPQRSTUVWXYZabcdefghijklmnopqrstuvwxyz0123456789".

(** The loop of [generateRandomString] that fills [result], from the
    first byte on. *)
Fixpoint generateRandomString_loop (count : nat) : IO string :=
  match count with
  | O => ioret ""
  | Datatypes.S count' =>
      randomIndex <<- Intn (Z.of_nat (String.length characters)) ;;
      match String.get (Z.to_nat randomIndex) characters with
      | None => iopanic
      | Some c =>
          rest <<- generateRandomString_loop count' ;;
          ioret (String c rest)
      end
  end.

(** [func generateRandomString() string] *)
Definition generateRandomString : IO string :=
  length <<- getRandomInt 5 10 ;;
  if (length <? 0)%Z then iopanic
  else generateRandomString_loop (Z.to_nat length).

(** The loop of [selectRandomElements]: [for i > 0]. *)
Fixpoint selectRandomElements_loop (i : nat) (shuffled : list string)
    : IO (list string) :=
  match i with
  | O => ioret shuffled
  | Datatypes.S i' =>
      randomIndex <<- Intn (Z.of_nat i) ;;
      match shuffled !! Z.to_nat randomIndex, shuffled !! i' with
      | Some atRandom, Some atI =>
          selectRandomElements_loop i'
            (<[Z.to_nat randomIndex := atI]> (<[i' := atRandom]> shuffled))
      | _, _ => iopanic
      end
  end.

(** [func selectRandomElements(arr []string, count int) []string] *)
Definition selectRandomElements (arr : list string) (count : Z)
    : IO (list string) :=
  shuffled <<- selectRandomElements_loop (length arr) arr ;;
  let n := min count (Z.of_nat (length shuffled)) in
  if (n <? 0)%Z then iopanic else ioret (take (Z.to_nat n) shuffled).

Section Main.

Variable md5_Sum : string -> string.

(** The recursion bound given to every call of [setValue] and [getValue]
    that [main] makes. *)
Variable fuel : nat.

(** [for k := 0; k < BucketSize; k++] in [main]: the neighbours of one
    bucket. *)
Definition main_neighbours (i j : Z) (bucket : Bucket) : IO Bucket :=
  forLoop (rounds 0 BucketSize 1) 0 1
    (fun k bucket =>
       if (100 * 160 <=? i * 160 + j + k)%Z then ioret bucket
       else
         neighbor <<- newPeer (mkPeer (Sprintf_d (i * 160 + j + k)) [] NewDHT) ;;
         ioret (mkBucket (Bucket_nodes bucket ++ [neighbor])%list))
    bucket.

(** [for j := 0; j < 160; j += BucketSize] in [main]: the buckets of one
    peer. *)
Definition main_buckets (i : Z) (peer : PeerPtr) : IO unit :=
  forLoop (rounds 0 160 BucketSize) 0 BucketSize
    (fun j _ =>
       bucket <<- main_neighbours i j (mkBucket []) ;;
       appendBucket peer bucket)
    tt.

(** [for i := 0; i < 100; i++] in [main]: the hundred nodes. *)
Definition main_nodes : IO (list PeerPtr) :=
  forLoop (rounds 0 100 1) 0 1
    (fun i nodes =>
       peer <<- newPeer (mkPeer (Sprintf_d i) [] NewDHT) ;;
       _ <<- main_buckets i peer ;;
       ioret (nodes ++ [peer])%list)
    [].

(** [nodes[randomNodeIndex].dht]: the table of a node of the slice. *)
Definition nodeTable (nodes : list PeerPtr) (index : Z) : IO DHTPtr :=
  match nodes !! Z.to_nat index with
  | Some (ptr a) => ioret a
  | _ => iopanic
  end.

(** [for i := 0; i < 200; i++] in [main]: two hundred keys and values,
    each stored at a random node. *)
Definition main_store (nodes : list PeerPtr) : IO (list string) :=
  forLoop (rounds 0 200 1) 0 1
    (fun _ keys =>
       key <<- generateRandomString ;;
       value <<- generateRandomString ;;
       randomNodeIndex <<- Intn (Z.of_nat (length nodes)) ;;
       randomNode <<- nodeTable nodes randomNodeIndex ;;
       _ <<- call (setValue md5_Sum fuel randomNode key value) ;;
       ioret (keys ++ [key])%list)
    [].

(** [for _, key := range selectedKeys] in [main]: each key is looked up
    at a random node and printed with the answer. *)
Fixpoint main_retrieve (nodes : list PeerPtr) (selectedKeys : list string)
    : IO unit :=
  match selectedKeys with
  | [] => ioret tt
  | key :: rest =>
      randomNodeIndex <<- Intn (Z.of_nat (length nodes)) ;;
      randomNode <<- nodeTable nodes randomNodeIndex ;;
      value <<- call (getValue fuel randomNode key) ;;
      _ <<- Printf ("Key: " ++ key ++ ", Value: " ++ value ++ String "010" "") ;;
      main_retrieve nodes rest
  end.

(** [func main()].  [rand.Seed] chooses the source of random numbers; the
    world that [main] is run in has an arbitrary one. *)
Definition main : IO unit :=
  nodes <<- main_nodes ;;
  keys <<- main_store nodes ;;
  selectedKeys <<- selectRandomElements keys 100 ;;
  main_retrieve nodes selectedKeys.

End Main.

(** The world in which a program starts: nothing allocated, nothing
    printed. *)
Definition initial (rand : nat -> nat) : World := mkWorld ∅ 0 rand [].

(** The world after one random number has been drawn. *)
Definition drawn (w : World) : World :=
  mkWorld (W_heap w) (W_next w) (fun i => W_rand w (S i)) (W_out w).

(** Two worlds that differ in the source of random numbers only. *)
Definition sameButRand (w w' : World) : Prop :=
  W_heap w' = W_heap w /\ W_next w' = W_next w /\ W_out w' = W_out w.

(** A key as [generateRandomString] makes them: five to ten characters of
    the alphabet. *)
Definition generated (s : string) : Prop :=
  (5 <= String.length s <= 10)%nat /\
  Forall (fun c => In c (list_ascii_of_string characters))
    (list_ascii_of_string s).

(** A store in which every peer has the table of [NewDHT]. *)
Definition tablesEmpty (h : Heap) : Prop :=
  forall a x, h !! a = Some x -> Peer_dht x = NewDHT.

(** The line that [main] prints for a key and the answer to it. *)
Definition line (key value : string) : string :=
  "Key: " ++ key ++ ", Value: " ++ value ++ String "010" "".

(** A store that keeps every peer location of an earlier one. *)
Definition grows (h h' : Heap) : Prop :=
  forall p, validPtr h p -> validPtr h' p.

(** What the construction loops of [main] keep: every table is the table
    of [NewDHT], no peer is lost, nothing is printed and no random number
    is drawn. *)
Definition built (w w' : World) : Prop :=
  tablesEmpty (W_heap w') /\ grows (W_heap w) (W_heap w') /\
  W_out w' = W_out w /\ W_rand w' = W_rand w.

(** One peer whose table holds the peer itself. *)
Definition selfRooted : Heap := <[0%nat := mkNode "7" [[ptr 0]]]> ∅.

(** Two stores with the same peers up to the peers' own buckets: at every
    location both have a peer or neither has, with the same identifier and
    the same table. *)
Definition sameTables (h h' : Heap) : Prop :=
  forall a,
    match h !! a, h' !! a with
    | Some x, Some x' => Peer_id x = Peer_id x' /\ Peer_dht x = Peer_dht x'
    | None, None => True
    | _, _ => False
    end.

(** Two computations that give the same outcome on such stores. *)
Definition agree {A} (m m' : M A) : Prop :=
  forall h h', sameTables h h' -> fst (m h) = fst (m' h').

(** The peer of [lonely] with a bucket of its own, as [main] gives its
    nodes. *)
Definition lonely_with_bucket : Heap :=
  <[0%nat := mkPeer "1" [mkBucket [ptr 1; ptr 2]] NewDHT]> ∅.

(** [forwardsSet h key d d']: a call of [setValue] for a valid [key] on
    the table [d] calls [setValue] on the table [d'] next: when the own
    node's table does not hold the key, the own node's table and then the
    tables of the selected nearest nodes. *)
Definition forwardsSet (h : Heap) (key : string) (d d' : DHTPtr) : Prop :=
  exists o,
    findOwnNode d h = (Ret (ptr o), h) /\
    containsKey o key h = (Ret false, h) /\
    (d' = o \/
     exists l, findNearestNodes d key h = (Ret l, h) /\ ptr d' ∈ l).

(** A peer (location 0) whose table holds one other peer (location 1),
    which has the table of [NewDHT]. *)
Definition chain : Heap :=
  <[0%nat := mkNode "4" [[ptr 1]]]> (<[1%nat := mkPeer "1" [] NewDHT]> ∅).

(** A bound on the depth of the calls from each peer of [chain]. *)
Definition depth_chain (d : DHTPtr) : nat :=
  if (d <? 1)%nat then 1%nat else 0%nat.

(** A peer whose table starts with the peer and holds a nil pointer. *)
Definition holed : Heap := <[0%nat := mkNode "4" [[ptr 0]; [nilPtr]]]> ∅.

(** A computation that never stops for want of fuel: every method but
    [setValue] and [getValue]. *)
Definition settles {A} (m : M A) : Prop :=
  forall h r h', m h = (r, h') -> r <> OutOfFuel.

(** An identifier that parses to a number of at most 63 bits. *)
Definition fits63 (s : string) : Prop := (0 <= SetString s 16 < 2 ^ 63)%Z.

(** Two peers with identifiers of 128 bits: A (location 0) spells 2, B
    (location 1) spells 2^64; A's table is [A, B]. *)
Definition wide : Heap :=
  <[0%nat := mkNode "00000000000000000000000000000002" [[ptr 0; ptr 1]]]>
    (<[1%nat := mkNode "00000000000000010000000000000000" []]> ∅).

(** Retrieve after store, in the words of the specification, on the code
    with a given digest function: after [setValue] has accepted a pair at
    a peer, [getValue] for the key at that peer returns the value. *)
Definition retrieveAfterStore (md5_Sum : string -> string) : Prop :=
  forall fuel P key value h h1,
    setValue md5_Sum fuel P key value h = (Ret true, h1) ->
    exists fuel', getValue fuel' P key h1 = (Ret value, h1).

(** Store idempotence, in the words of the specification, on the code
    with a given digest function: storing a valid pair twice at a peer
    returns [true] both times and leaves exactly one entry for the key. *)
Definition storeIdempotent (md5_Sum : string -> string) : Prop :=
  forall P key value h x,
    key = hashValue md5_Sum key -> h !! P = Some x ->
    exists fuel h1 h2,
      setValue md5_Sum fuel P key value h = (Ret true, h1) /\
      setValue md5_Sum fuel P key value h1 = (Ret true, h2) /\
      keyEntries h2 P key = 1%nat.

(** * Properties *)

(** ** The store is only read *)

Lemma readonly_ret {A} (a : A) : readonly (ret a).
Proof. intros h; reflexivity. Qed.

Lemma readonly_panic {A} : readonly (@panic A).
Proof. intros h; reflexivity. Qed.

Lemma readonly_diverge {A} : readonly (@diverge A).
Proof. intros h; reflexivity. Qed.

Lemma readonly_bind {A B} (m : M A) (f : A -> M B) :
  readonly m -> (forall a, readonly (f a)) -> readonly (bind m f).
Proof.
  intros Hm Hf h. unfold bind.
  specialize (Hm h). destruct (m h) as [[a| |] h']; simpl in *; subst; auto.
  apply Hf.
Qed.

Lemma readonly_loadPeer p : readonly (loadPeer p).
Proof.
  intros h. unfold loadPeer. destruct p as [|a]; [reflexivity|].
  destruct (h !! a); reflexivity.
Qed.

(** A write is seen by [readonly]: the property is not void. *)
Lemma storePeer_not_readonly a x : ~ readonly (storePeer a x).
Proof.
  intros H. specialize (H ∅). unfold storePeer in H; simpl in H.
  assert (E : (<[a:=x]> (∅ : Heap)) !! a = (∅ : Heap) !! a) by (rewrite H; reflexivity).
  rewrite lookup_insert_eq, lookup_empty in E. discriminate.
Qed.

Create HintDb readonly.
#[export] Hint Resolve readonly_ret readonly_panic readonly_diverge
  readonly_loadPeer : readonly.

Ltac readonly_step :=
  match goal with
  | |- readonly (bind _ _) => apply readonly_bind; [| intros ?]
  | |- readonly (match ?x with _ => _ end) => destruct x
  | |- readonly (if ?b then _ else _) => destruct b
  | |- readonly _ => solve [eauto with readonly]
  end.

Ltac readonly_auto := repeat readonly_step.

Lemma readonly_loadDHT d : readonly (loadDHT d).
Proof. unfold loadDHT. readonly_auto. Qed.
#[export] Hint Resolve readonly_loadDHT : readonly.

Lemma readonly_findOwnNode d : readonly (findOwnNode d).
Proof. unfold findOwnNode. readonly_auto. Qed.
#[export] Hint Resolve readonly_findOwnNode : readonly.

Lemma readonly_containsKey_nodes nodes key :
  readonly (containsKey_nodes nodes key).
Proof. induction nodes as [|p rest IH]; simpl; readonly_auto. Qed.
#[export] Hint Resolve readonly_containsKey_nodes : readonly.

Lemma readonly_containsKey_buckets bs key :
  readonly (containsKey_buckets bs key).
Proof. induction bs as [|b rest IH]; simpl; readonly_auto. Qed.
#[export] Hint Resolve readonly_containsKey_buckets : readonly.

Lemma readonly_containsKey d key : readonly (containsKey d key).
Proof. unfold containsKey. readonly_auto. Qed.
#[export] Hint Resolve readonly_containsKey : readonly.

Lemma readonly_closer key p1 p2 : readonly (closer key p1 p2).
Proof. unfold closer. readonly_auto. Qed.
#[export] Hint Resolve readonly_closer : readonly.

Lemma readonly_sink less x sorted_rev :
  (forall p q, readonly (less p q)) -> readonly (sink less x sorted_rev).
Proof. intros Hl. induction sorted_rev as [|y r IH]; simpl; readonly_auto. Qed.

Lemma readonly_insertionSort less todo :
  (forall p q, readonly (less p q)) ->
  forall sorted_rev, readonly (insertionSort less sorted_rev todo).
Proof.
  intros Hl. induction todo as [|x rest IH]; intros sorted_rev; simpl.
  - readonly_auto.
  - apply readonly_bind; [apply readonly_sink; assumption | intros; apply IH].
Qed.

Lemma readonly_sortPeerSlice nodes less :
  (forall p q, readonly (less p q)) -> readonly (sortPeerSlice nodes less).
Proof. intros Hl. apply readonly_insertionSort; assumption. Qed.

Lemma readonly_keepNear key dist nodes : readonly (keepNear key dist nodes).
Proof. induction nodes as [|p rest IH]; simpl; readonly_auto. Qed.
#[export] Hint Resolve readonly_keepNear : readonly.

Lemma readonly_findNearestNodes d key : readonly (findNearestNodes d key).
Proof.
  unfold findNearestNodes.
  apply readonly_bind; [auto with readonly | intros own].
  destruct own; [auto with readonly |].
  do 2 (apply readonly_bind; [solve [auto with readonly] | intros ?]).
  apply readonly_bind;
    [apply readonly_sortPeerSlice; auto with readonly | intros ?].
  readonly_auto.
Qed.
#[export] Hint Resolve readonly_findNearestNodes : readonly.

Lemma readonly_getValue_loop get nodes :
  (forall a, readonly (get a)) -> readonly (getValue_loop get nodes).
Proof.
  intros Hg. induction nodes as [|p rest IH]; simpl; [auto with readonly|].
  destruct p; [auto with readonly|].
  apply readonly_bind; [apply Hg | intros v].
  destruct (negb _); auto with readonly.
Qed.

Lemma readonly_getValue fuel : forall d key, readonly (getValue fuel d key).
Proof.
  induction fuel as [|fuel IH]; intros d key; simpl; [auto with readonly|].
  apply readonly_bind; [auto with readonly | intros own].
  assert (Hf : readonly (bind (findNearestNodes d key)
                (fun nearestNodes =>
                   getValue_loop (fun a => getValue fuel a key) nearestNodes))).
  { apply readonly_bind; [auto with readonly | intros l].
    apply readonly_getValue_loop. intros a; apply IH. }
  destruct own as [|o]; [exact Hf|].
  apply readonly_bind; [auto with readonly | intros held].
  destruct held; [apply IH | exact Hf].
Qed.

Lemma readonly_setValue_loop set nodes :
  (forall a, readonly (set a)) -> readonly (setValue_loop set nodes).
Proof.
  intros Hs. induction nodes as [|p rest IH]; simpl; [auto with readonly|].
  destruct p; [auto with readonly|].
  apply readonly_bind; [apply Hs | intros _; exact IH].
Qed.

Lemma readonly_setValue md5_Sum fuel :
  forall d key value, readonly (setValue md5_Sum fuel d key value).
Proof.
  induction fuel as [|fuel IH]; intros d key value; simpl;
    [auto with readonly|].
  destruct (negb _); [auto with readonly|].
  apply readonly_bind; [auto with readonly | intros own].
  assert (Hf : readonly (bind (findNearestNodes d key)
                (fun nearestNodes =>
                   bind (setValue_loop
                           (fun a => setValue md5_Sum fuel a key value)
                           nearestNodes)
                        (fun _ => ret true)))).
  { apply readonly_bind; [auto with readonly | intros l].
    apply readonly_bind; [| intros; auto with readonly].
    apply readonly_setValue_loop. intros a; apply IH. }
  destruct own as [|o]; [exact Hf|].
  apply readonly_bind; [auto with readonly | intros held].
  destruct held; [auto with readonly|].
  apply readonly_bind; [apply IH | intros _; exact Hf].
Qed.

(** ** Running computations *)

Lemma bind_Ret {A B} (m : M A) (f : A -> M B) h h' a :
  m h = (Ret a, h') -> bind m f h = f a h'.
Proof. intros E. unfold bind. rewrite E. reflexivity. Qed.

Lemma bind_Ret_inv {A B} (m : M A) (f : A -> M B) h h' b :
  bind m f h = (Ret b, h') ->
  exists a h1, m h = (Ret a, h1) /\ f a h1 = (Ret b, h').
Proof.
  unfold bind. destruct (m h) as [[a| |] h1]; intros E; try discriminate.
  exists a, h1. split; [reflexivity | exact E].
Qed.

Lemma bind_OutOfFuel {A B} (m : M A) (f : A -> M B) h h' :
  m h = (OutOfFuel, h') -> bind m f h = (OutOfFuel, h').
Proof. intros E. unfold bind. rewrite E. reflexivity. Qed.

Lemma run_readonly {A} (m : M A) h r h' :
  readonly m -> m h = (r, h') -> h' = h.
Proof. intros Hm E. specialize (Hm h). rewrite E in Hm. exact Hm. Qed.

Lemma loadPeer_Some h a x : h !! a = Some x -> loadPeer (ptr a) h = (Ret x, h).
Proof. intros E. unfold loadPeer. rewrite E. reflexivity. Qed.

Lemma loadPeer_Ret_inv h h' p x :
  loadPeer p h = (Ret x, h') -> h' = h /\ exists a, p = ptr a /\ h !! a = Some x.
Proof.
  unfold loadPeer. destruct p as [|a]; [discriminate|].
  destruct (h !! a) as [y|] eqn:E; intros H; inversion H; subst.
  split; [reflexivity | exists a; auto].
Qed.

Lemma loadDHT_Some h d x :
  h !! d = Some x -> loadDHT d h = (Ret (Peer_dht x), h).
Proof.
  intros E. unfold loadDHT.
  rewrite (bind_Ret _ _ h h x (loadPeer_Some h d x E)). reflexivity.
Qed.

Lemma loadDHT_Ret_inv h h' d t :
  loadDHT d h = (Ret t, h') ->
  h' = h /\ exists x, h !! d = Some x /\ t = Peer_dht x.
Proof.
  unfold loadDHT. intros E.
  apply bind_Ret_inv in E as (x & h1 & E1 & E2).
  apply loadPeer_Ret_inv in E1 as (-> & a & Ea & Hx).
  inversion Ea; subst a. inversion E2; subst.
  split; [reflexivity | exists x; auto].
Qed.

Lemma findOwnNode_Some h d x :
  h !! d = Some x -> findOwnNode d h = (Ret (firstEntry (Peer_dht x)), h).
Proof.
  intros E. unfold findOwnNode.
  rewrite (bind_Ret _ _ h h _ (loadDHT_Some h d x E)).
  unfold firstEntry.
  destruct (DHT_buckets (Peer_dht x)) as [|b bs]; [reflexivity|].
  simpl. destruct (Bucket_nodes b); reflexivity.
Qed.

Lemma findOwnNode_Ret_inv h h' d own :
  findOwnNode d h = (Ret own, h') ->
  h' = h /\ exists x, h !! d = Some x /\ own = firstEntry (Peer_dht x).
Proof.
  intros E. pose proof (run_readonly _ _ _ _ (readonly_findOwnNode d) E); subst.
  split; [reflexivity|].
  unfold findOwnNode in E. apply bind_Ret_inv in E as (t & h1 & E1 & E2).
  apply loadDHT_Ret_inv in E1 as (-> & x & Hx & ->).
  exists x. split; [assumption|].
  unfold firstEntry.
  destruct (DHT_buckets (Peer_dht x)) as [|b bs]; simpl in *;
    [inversion E2; reflexivity|].
  destruct (Bucket_nodes b); inversion E2; reflexivity.
Qed.

Lemma firstEntry_in t a : firstEntry t = ptr a -> ptr a ∈ allNodes t.
Proof.
  unfold firstEntry, allNodes.
  destruct (DHT_buckets t) as [|b bs]; simpl; [discriminate|].
  destruct (Bucket_nodes b) as [|n ns]; simpl; [discriminate|].
  intros ->. apply list_elem_of_here.
Qed.

(** ** Sorting and filtering the candidates *)

Lemma validPtr_load h p :
  validPtr h p -> exists x, loadPeer p h = (Ret x, h).
Proof.
  intros (a & x & -> & E). exists x. apply loadPeer_Some; assumption.
Qed.

Lemma closer_total h key p1 p2 :
  validPtr h p1 -> validPtr h p2 ->
  exists b, closer key p1 p2 h = (Ret b, h).
Proof.
  intros (a1 & x1 & -> & E1) (a2 & x2 & -> & E2). unfold closer.
  rewrite (bind_Ret _ _ h h x1 (loadPeer_Some _ _ _ E1)).
  rewrite (bind_Ret _ _ h h x2 (loadPeer_Some _ _ _ E2)).
  destruct (negb _); eexists; reflexivity.
Qed.

Lemma sink_Ret_inv less x sorted_rev h h' l :
  sink less x sorted_rev h = (Ret l, h') -> l ≡ₚ x :: sorted_rev.
Proof.
  revert h h' l. induction sorted_rev as [|y r IH]; intros h h' l; simpl.
  - intros E; inversion E; reflexivity.
  - intros E. apply bind_Ret_inv in E as (lt & h1 & _ & E).
    destruct lt.
    + apply bind_Ret_inv in E as (r' & h2 & E1 & E2).
      inversion E2; subst. apply IH in E1. rewrite E1. apply Permutation_swap.
    + inversion E; reflexivity.
Qed.

Lemma insertionSort_Ret_inv less todo :
  forall sorted_rev h h' l,
    insertionSort less sorted_rev todo h = (Ret l, h') ->
    l ≡ₚ sorted_rev ++ todo.
Proof.
  induction todo as [|x rest IH]; intros sorted_rev h h' l; simpl.
  - intros E; inversion E. rewrite app_nil_r. symmetry. apply Permutation_rev.
  - intros E. apply bind_Ret_inv in E as (s' & h1 & E1 & E2).
    apply IH in E2. apply sink_Ret_inv in E1.
    rewrite E2, E1. simpl. apply Permutation_middle.
Qed.

Lemma sink_total h key x sorted_rev :
  validPtr h x -> Forall (validPtr h) sorted_rev ->
  exists l, sink (closer key) x sorted_rev h = (Ret l, h).
Proof.
  intros Hx Hs. induction Hs as [|y r Hy Hr IH]; simpl.
  - eexists; reflexivity.
  - destruct (closer_total h key x y Hx Hy) as [b Eb].
    rewrite (bind_Ret _ _ h h b Eb). destruct b.
    + destruct IH as [l El]. rewrite (bind_Ret _ _ h h l El).
      eexists; reflexivity.
    + eexists; reflexivity.
Qed.

Lemma insertionSort_total h key todo :
  forall sorted_rev,
    Forall (validPtr h) sorted_rev -> Forall (validPtr h) todo ->
    exists l, insertionSort (closer key) sorted_rev todo h = (Ret l, h).
Proof.
  induction todo as [|x rest IH]; intros sorted_rev Hs Ht; simpl.
  - eexists; reflexivity.
  - inversion Ht as [|? ? Hx Hrest]; subst.
    destruct (sink_total h key x sorted_rev Hx Hs) as [s' Es'].
    rewrite (bind_Ret _ _ h h s' Es').
    apply IH; [|assumption].
    apply sink_Ret_inv in Es'. rewrite Es'. constructor; assumption.
Qed.

Lemma keepNear_Ret_inv key dist nodes :
  forall h h' l,
    keepNear key dist nodes h = (Ret l, h') ->
    h' = h /\ Forall (within h key dist) l /\ sublist l nodes.
Proof.
  induction nodes as [|p rest IH]; intros h h' l; simpl.
  - intros E; inversion E; subst. repeat split; constructor.
  - intros E. apply bind_Ret_inv in E as (x & h1 & E1 & E).
    apply loadPeer_Ret_inv in E1 as (-> & a & -> & Hx).
    apply bind_Ret_inv in E as (near & h2 & E2 & E).
    apply IH in E2 as (-> & Hnear & Hsub).
    destruct (calculateDistance (Peer_id x) key <=? dist)%Z eqn:Hd;
      inversion E; subst; split; try reflexivity; split.
    + constructor; [|assumption]. exists a, x. repeat split; try assumption.
      apply Z.leb_le; assumption.
    + apply sublist_skip; assumption.
    + assumption.
    + apply sublist_cons; assumption.
Qed.

Lemma keepNear_total h key dist nodes :
  Forall (validPtr h) nodes ->
  exists l, keepNear key dist nodes h = (Ret l, h).
Proof.
  intros Hn. induction Hn as [|p rest Hp Hrest IH]; simpl.
  - eexists; reflexivity.
  - destruct (validPtr_load h p Hp) as [x Ex].
    rewrite (bind_Ret _ _ h h x Ex). destruct IH as [l El].
    rewrite (bind_Ret _ _ h h l El).
    destruct (_ <=? _)%Z; eexists; reflexivity.
Qed.

(** ** [findNearestNodes] *)

Lemma findNearestNodes_no_own h d x key :
  h !! d = Some x -> firstEntry (Peer_dht x) = nilPtr ->
  findNearestNodes d key h = (Ret [], h).
Proof.
  intros Hd Hown. unfold findNearestNodes.
  rewrite (bind_Ret _ _ h h _ (findOwnNode_Some h d x Hd)), Hown.
  reflexivity.
Qed.

Lemma findNearestNodes_own h d x o xo key :
  h !! d = Some x -> firstEntry (Peer_dht x) = ptr o -> h !! o = Some xo ->
  findNearestNodes d key h =
  selectNearest key (calculateDistance (Peer_id xo) key)
    (allNodes (Peer_dht x)) h.
Proof.
  intros Hd Hown Ho. unfold findNearestNodes.
  rewrite (bind_Ret _ _ h h _ (findOwnNode_Some h d x Hd)), Hown.
  rewrite (bind_Ret _ _ h h _ (loadPeer_Some h o xo Ho)).
  rewrite (bind_Ret _ _ h h _ (loadDHT_Some h d x Hd)).
  reflexivity.
Qed.

Lemma min_2_length (n : nat) : (Z.to_nat (min 2 (Z.of_nat n)) <= 2)%nat.
Proof. unfold min. destruct (2 <? Z.of_nat n)%Z eqn:E; lia. Qed.

Lemma selectNearest_Ret_inv key dist nodes h h' l :
  selectNearest key dist nodes h = (Ret l, h') ->
  h' = h /\ (length l <= 2)%nat /\ Forall (within h key dist) l /\ l ⊆ nodes.
Proof.
  unfold selectNearest. intros E.
  apply bind_Ret_inv in E as (sorted & h1 & E1 & E).
  pose proof (run_readonly _ _ _ _
    (readonly_sortPeerSlice nodes (closer key) (readonly_closer key)) E1);
    subst h1.
  apply insertionSort_Ret_inv in E1. simpl in E1.
  apply bind_Ret_inv in E as (near & h2 & E2 & E).
  apply keepNear_Ret_inv in E2 as (-> & Hnear & Hsub).
  inversion E; subst. split; [reflexivity|]. split; [|split].
  - rewrite length_take. pose proof (min_2_length (length near)). lia.
  - apply Forall_take. assumption.
  - intros p Hp. rewrite <- E1. apply (sublist_subseteq _ _ Hsub).
    revert Hp. apply subseteq_take.
Qed.

Lemma selectNearest_total h key dist nodes :
  Forall (validPtr h) nodes ->
  exists l, selectNearest key dist nodes h = (Ret l, h).
Proof.
  intros Hn. unfold selectNearest, sortPeerSlice, SliceStable.
  destruct (insertionSort_total h key nodes [] (Forall_nil_2 _) Hn)
    as [sorted Es].
  rewrite (bind_Ret _ _ h h sorted Es).
  apply insertionSort_Ret_inv in Es. simpl in Es.
  assert (Hs : Forall (validPtr h) sorted) by (rewrite Es; assumption).
  destruct (keepNear_total h key dist sorted Hs) as [near En].
  rewrite (bind_Ret _ _ h h near En). eexists; reflexivity.
Qed.

(** The peers that [findNearestNodes] returns: at most two, each a peer
    of the table and no farther from the key than the own node. *)
Lemma findNearestNodes_Ret_inv h d key l h' :
  findNearestNodes d key h = (Ret l, h') ->
  h' = h /\
  (length l <= 2)%nat /\
  forall p, p ∈ l ->
    exists a x o xo t,
      p = ptr a /\ h !! a = Some x /\
      findOwnNode d h = (Ret (ptr o), h) /\ h !! o = Some xo /\
      loadDHT d h = (Ret t, h) /\ p ∈ allNodes t /\
      (calculateDistance (Peer_id x) key
       <= calculateDistance (Peer_id xo) key)%Z.
Proof.
  intros E.
  assert (E' := E). unfold findNearestNodes in E'.
  apply bind_Ret_inv in E' as (own & h1 & Eown & E').
  apply findOwnNode_Ret_inv in Eown as (-> & x & Hd & ->).
  destruct (firstEntry (Peer_dht x)) as [|o] eqn:Hown.
  - inversion E'; subst. split; [reflexivity|]. split; [simpl; lia|].
    intros p Hp. inversion Hp.
  - apply bind_Ret_inv in E' as (xo & h2 & Exo & _).
    apply loadPeer_Ret_inv in Exo as (-> & o' & Eo & Ho).
    inversion Eo; subst o'.
    rewrite (findNearestNodes_own h d x o xo key Hd Hown Ho) in E.
    apply selectNearest_Ret_inv in E as (-> & Hlen & Hnear & Hsub).
    split; [reflexivity|]. split; [assumption|]. intros p Hp.
    rewrite Forall_forall in Hnear.
    destruct (Hnear p Hp) as (a & xa & -> & Ha & Hdist).
    exists a, xa, o, xo, (Peer_dht x). repeat split; try assumption.
    + rewrite (findOwnNode_Some h d x Hd), Hown. reflexivity.
    + apply loadDHT_Some; assumption.
    + apply Hsub; assumption.
Qed.

(** [findNearestNodes] returns when no pointer of the table is nil. *)
Lemma findNearestNodes_total h d key x :
  h !! d = Some x -> Forall (validPtr h) (allNodes (Peer_dht x)) ->
  exists l, findNearestNodes d key h = (Ret l, h).
Proof.
  intros Hd Hvalid.
  destruct (firstEntry (Peer_dht x)) as [|o] eqn:Hown.
  - exists []. apply (findNearestNodes_no_own h d x key Hd Hown).
  - pose proof (firstEntry_in _ _ Hown) as Hin.
    rewrite Forall_forall in Hvalid.
    destruct (Hvalid _ Hin) as (o' & xo & Eo & Ho).
    inversion Eo; subst o'.
    rewrite (findNearestNodes_own h d x o xo key Hd Hown Ho).
    apply selectNearest_total. rewrite Forall_forall. assumption.
Qed.

(** X18: for every table and key, [findNearestNodes] returns at most two
    peers, each of them a peer of the table that is no farther from the key
    than the own node (the first entry of the first bucket) by the number
    that [calculateDistance] returns, which is the number the code
    compares; and it does return such a list whenever every pointer kept in
    the table points to a peer. *)
Theorem findNearestNodes_fanout_cap (h : Heap) (d : DHTPtr) (key : string) :
  (forall l h',
      findNearestNodes d key h = (Ret l, h') ->
      (length l <= 2)%nat /\
      forall p, p ∈ l ->
        exists a x o xo t,
          p = ptr a /\ h !! a = Some x /\
          findOwnNode d h = (Ret (ptr o), h) /\ h !! o = Some xo /\
          loadDHT d h = (Ret t, h) /\ p ∈ allNodes t /\
          (calculateDistance (Peer_id x) key
           <= calculateDistance (Peer_id xo) key)%Z)
  /\
  (forall x,
      h !! d = Some x -> Forall (validPtr h) (allNodes (Peer_dht x)) ->
      exists l, findNearestNodes d key h = (Ret l, h)).
Proof.
  split.
  - intros l h' E. apply findNearestNodes_Ret_inv in E as (_ & Hlen & Hl).
    split; assumption.
  - intros x. apply findNearestNodes_total.
Qed.

(** C7: peers A (0x0F), B (0x05) and C (0x0A), target key 0x00.  When A's
    table starts with A itself (the own node) and otherwise holds exactly B
    and C, in any order and in any arrangement of buckets,
    [findNearestNodes] at A returns the list [B, C], in that order. *)
Theorem findNearestNodes_scenario (rest0 : list PeerPtr) (bs : list Bucket)
    (tB tC : DHT) :
  rest0 ++ concat (map Bucket_nodes bs) ≡ₚ [ptr 1; ptr 2] ->
  findNearestNodes 0 "00000000"
    (scenario (mkDHT (mkBucket (ptr 0 :: rest0) :: bs)) tB tC)
  = (Ret [ptr 1; ptr 2],
     scenario (mkDHT (mkBucket (ptr 0 :: rest0) :: bs)) tB tC).
Proof.
  intros HP.
  set (tA := mkDHT (mkBucket (ptr 0 :: rest0) :: bs)).
  assert (H0 : scenario tA tB tC !! 0%nat = Some (mkPeer "0000000f" [] tA))
    by reflexivity.
  rewrite (findNearestNodes_own _ 0 _ 0 _ "00000000" H0 eq_refl H0).
  unfold allNodes, tA. simpl.
  symmetry in HP. apply Permutation_length_2_inv in HP as [-> | ->];
    vm_compute; reflexivity.
Qed.

Lemma findNearestNodes_scenario_witness :
  findNearestNodes 0 "00000000"
    (scenario (mkDHT [mkBucket [ptr 0; ptr 1; ptr 2]]) NewDHT NewDHT)
  = (Ret [ptr 1; ptr 2],
     scenario (mkDHT [mkBucket [ptr 0; ptr 1; ptr 2]]) NewDHT NewDHT).
Proof.
  apply (findNearestNodes_scenario [ptr 1; ptr 2] [] NewDHT NewDHT).
  simpl. apply Permutation_refl.
Defined.

(** Without A at the head of its own table, B is taken for the own node
    and C, farther from the key than B, is dropped. *)
Lemma findNearestNodes_scenario_without_self :
  fst (findNearestNodes 0 "00000000"
         (scenario (mkDHT [mkBucket [ptr 1; ptr 2]]) NewDHT NewDHT))
  = Ret [ptr 1].
Proof. vm_compute. reflexivity. Qed.

Lemma findNearestNodes_fanout_cap_witness :
  exists l,
    findNearestNodes 0 "00000000"
      (scenario (mkDHT [mkBucket [ptr 0; ptr 1; ptr 2]]) NewDHT NewDHT)
    = (Ret l, scenario (mkDHT [mkBucket [ptr 0; ptr 1; ptr 2]]) NewDHT NewDHT)
    /\ (length l <= 2)%nat.
Proof.
  pose proof (findNearestNodes_fanout_cap
    (scenario (mkDHT [mkBucket [ptr 0; ptr 1; ptr 2]]) NewDHT NewDHT)
    0%nat "00000000") as [Hcap Htotal].
  destruct (Htotal (mkPeer "0000000f" []
                      (mkDHT [mkBucket [ptr 0; ptr 1; ptr 2]])) eq_refl)
    as [l El].
  - repeat constructor; eexists _, _; (split; [reflexivity|]);
      vm_compute; reflexivity.
  - exists l. split; [exact El|]. apply (Hcap l _ El).
Defined.

(** C6 fails on the code.  In [wide] the own node A spells 2 and B spells
    2^64; for the key 0 the exclusive or puts A at distance 2 and B at
    distance 2^64, yet [findNearestNodes] at A returns B, and returns it
    first: [calculateDistance] keeps the low 64 bits and ranks B at
    distance 0. *)
Theorem findNearestNodes_returns_farther_peer :
  findOwnNode 0 wide = (Ret (ptr 0), wide) /\
  findNearestNodes 0 "00000000000000000000000000000000" wide
  = (Ret [ptr 1; ptr 0], wide) /\
  Z.lxor (SetString "00000000000000000000000000000002" 16)
         (SetString "00000000000000000000000000000000" 16) = 2%Z /\
  Z.lxor (SetString "00000000000000010000000000000000" 16)
         (SetString "00000000000000000000000000000000" 16) = (2 ^ 64)%Z /\
  calculateDistance "00000000000000010000000000000000"
                    "00000000000000000000000000000000" = 0%Z.
Proof. repeat split. Qed.

Lemma lookup_scenario_None tA tB tC d :
  scenario tA tB tC !! S (S (S d)) = None.
Proof.
  unfold scenario. rewrite !lookup_insert_ne by lia. apply lookup_empty.
Qed.

Lemma fits63_scenario tA tB tC a x :
  scenario tA tB tC !! a = Some x -> fits63 (Peer_id x).
Proof.
  destruct a as [|[|[|a]]]; intros Ha;
    [| | | rewrite lookup_scenario_None in Ha; discriminate];
    vm_compute in Ha; inversion Ha; subst x; vm_compute;
    (split; [discriminate | reflexivity]).
Qed.

(** ** [findOwnNode] *)

(** C8, as the code has it: [findOwnNode] returns the first entry of the
    first bucket.  It returns nil exactly when there is no bucket, the
    first bucket is empty, or its first entry is nil, whatever later
    buckets hold; when the first bucket is not empty this is the first
    entry of the first bucket that is not empty; and [findNearestNodes]
    returns the empty list whenever [findOwnNode] returns nil. *)
Theorem findOwnNode_first_bucket (h : Heap) (d : DHTPtr) (x : Peer)
    (key : string) :
  h !! d = Some x ->
  findOwnNode d h = (Ret (firstEntry (Peer_dht x)), h) /\
  (firstEntry (Peer_dht x) = nilPtr <->
   DHT_buckets (Peer_dht x) = [] \/
   exists b rest,
     DHT_buckets (Peer_dht x) = b :: rest /\
     (Bucket_nodes b = [] \/ exists r, Bucket_nodes b = nilPtr :: r)) /\
  (forall b rest,
      DHT_buckets (Peer_dht x) = b :: rest -> Bucket_nodes b <> [] ->
      Self_spec (DHT_buckets (Peer_dht x)) = Some (firstEntry (Peer_dht x))) /\
  (firstEntry (Peer_dht x) = nilPtr ->
   findNearestNodes d key h = (Ret [], h)).
Proof.
  intros Hd. split; [apply findOwnNode_Some; assumption|].
  split; [|split].
  - unfold firstEntry.
    destruct (DHT_buckets (Peer_dht x)) as [|b rest]; simpl.
    + split; auto.
    + destruct (Bucket_nodes b) as [|n ns] eqn:Hb; simpl.
      * split; [|reflexivity]. intros _. right. exists b, rest. auto.
      * split.
        -- intros ->. right. exists b, rest. split; [reflexivity|].
           right. exists ns. assumption.
        -- intros [Hnil | (b' & rest' & Heq & [Hnil | (r & Hr)])].
           ++ discriminate.
           ++ inversion Heq; subst. congruence.
           ++ inversion Heq; subst. congruence.
  - intros b rest Hbs Hne. unfold firstEntry. rewrite Hbs. simpl.
    destruct (Bucket_nodes b); [contradiction | reflexivity].
  - intros Hown. apply (findNearestNodes_no_own h d x key Hd Hown).
Qed.

Lemma findOwnNode_first_bucket_witness :
  findOwnNode 0 (scenario (mkDHT [mkBucket [ptr 0; ptr 1; ptr 2]]) NewDHT NewDHT)
  = (Ret (ptr 0), scenario (mkDHT [mkBucket [ptr 0; ptr 1; ptr 2]]) NewDHT NewDHT).
Proof.
  apply (findOwnNode_first_bucket
           (scenario (mkDHT [mkBucket [ptr 0; ptr 1; ptr 2]]) NewDHT NewDHT)
           0%nat
           (mkPeer "0000000f" [] (mkDHT [mkBucket [ptr 0; ptr 1; ptr 2]]))
           "00000000").
  reflexivity.
Defined.

(** C8 as stated fails: peer 0 of [cycle2_no_own] has the table
    [[]; [1]].  The first entry of its first bucket that is not empty is
    peer 1 and the table holds a peer, yet [findOwnNode] returns nil. *)
Lemma findOwnNode_not_first_nonempty :
  cycle2_no_own !! 0%nat = Some (mkNode "1" [[]; [ptr 1]]) /\
  Self_spec (DHT_buckets (Peer_dht (mkNode "1" [[]; [ptr 1]]))) = Some (ptr 1) /\
  allNodes (Peer_dht (mkNode "1" [[]; [ptr 1]])) = [ptr 1] /\
  findOwnNode 0 cycle2_no_own = (Ret nilPtr, cycle2_no_own).
Proof. repeat split. Qed.

(** ** Distance *)

Lemma wrap64_range z : (- 2 ^ 63 <= wrap64 z < 2 ^ 63)%Z.
Proof.
  unfold wrap64.
  pose proof (Z.mod_pos_bound (z + 2 ^ 63) (2 ^ 64) eq_refl). lia.
Qed.

(** The result is an [int]: it lies in the range of 64-bit integers. *)
Lemma calculateDistance_range id1 id2 :
  (- 2 ^ 63 <= calculateDistance id1 id2 < 2 ^ 63)%Z.
Proof.
  unfold calculateDistance, Int64.
  destruct (_ <? 0)%Z; apply wrap64_range.
Qed.

Lemma lxor_below_pow2 a b n :
  (0 < n)%Z -> (0 <= a < 2 ^ n)%Z -> (0 <= b < 2 ^ n)%Z ->
  (0 <= Z.lxor a b < 2 ^ n)%Z.
Proof.
  intros Hn Ha Hb.
  assert (H0 : (0 <= Z.lxor a b)%Z) by (apply Z.lxor_nonneg; lia).
  split; [assumption|].
  destruct (Z.eq_dec (Z.lxor a b) 0%Z) as [E|E]; [rewrite E; lia|].
  apply Z.log2_lt_pow2; [lia|].
  pose proof (Z.log2_lxor a b ltac:(lia) ltac:(lia)) as Hl.
  assert (Z.log2 a < n)%Z.
  { destruct (Z.eq_dec a 0%Z) as [->|]; [simpl; lia|].
    apply Z.log2_lt_pow2; lia. }
  assert (Z.log2 b < n)%Z.
  { destruct (Z.eq_dec b 0%Z) as [->|]; [simpl; lia|].
    apply Z.log2_lt_pow2; lia. }
  lia.
Qed.

(** On identifiers of at most 63 bits the distance is the exclusive or of
    the two numbers. *)
Lemma calculateDistance_exact id1 id2 :
  (0 <= SetString id1 16 < 2 ^ 63)%Z ->
  (0 <= SetString id2 16 < 2 ^ 63)%Z ->
  calculateDistance id1 id2 = Z.lxor (SetString id1 16) (SetString id2 16).
Proof.
  intros H1 H2. unfold calculateDistance, Int64.
  pose proof (lxor_below_pow2 _ _ 63 ltac:(lia) H1 H2) as Hx.
  set (x := Z.lxor _ _) in *.
  destruct (x <? 0)%Z eqn:Eneg; [apply Z.ltb_lt in Eneg; lia|].
  unfold wrap64. rewrite Z.abs_eq by lia.
  rewrite (Z.mod_small x) by lia.
  rewrite Z.mod_small by lia. lia.
Qed.

(** C5 fails on the code: on two identifiers of 128 bits, as [hashValue]
    produces them, the exclusive or is 2^64 but the distance returned is 0,
    the low 64 bits; and a peer whose identifier differs from the key in
    bit 64 is ranked closer than one that differs in bit 0. *)
Theorem calculateDistance_truncates :
  Z.lxor (SetString "00000000000000010000000000000000" 16)
         (SetString "00000000000000000000000000000000" 16) = (2 ^ 64)%Z /\
  calculateDistance "00000000000000010000000000000000"
                    "00000000000000000000000000000000" = 0%Z /\
  Z.lxor (SetString "00000000000000000000000000000001" 16)
         (SetString "00000000000000000000000000000000" 16) = 1%Z /\
  calculateDistance "00000000000000000000000000000001"
                    "00000000000000000000000000000000" = 1%Z /\
  calculateDistance "00000000000000008000000000000000"
                    "00000000000000000000000000000000" = (- 2 ^ 63)%Z.
Proof. repeat split. Qed.

(** ** Store: the integrity check *)

Lemma setValue_loop_Ret_tt set nodes h h' u :
  setValue_loop set nodes h = (Ret u, h') -> u = tt.
Proof. destruct u; reflexivity. Qed.

(** A call that passes the integrity check never answers [false]. *)
Lemma setValue_accepts md5_Sum fuel d key value h h' b :
  key = hashValue md5_Sum key ->
  setValue md5_Sum (S fuel) d key value h = (Ret b, h') -> b = true.
Proof.
  intros Hk E. simpl in E.
  rewrite <- Hk, String.eqb_refl in E. simpl in E.
  apply bind_Ret_inv in E as (own & h1 & _ & E).
  assert (Hf : forall h1,
             bind (findNearestNodes d key)
               (fun nearestNodes =>
                  bind (setValue_loop
                          (fun a => setValue md5_Sum fuel a key value)
                          nearestNodes)
                       (fun _ => ret true)) h1 = (Ret b, h') -> b = true).
  { intros h2 E2. apply bind_Ret_inv in E2 as (l & h3 & _ & E2).
    apply bind_Ret_inv in E2 as (u & h4 & _ & E2).
    inversion E2; reflexivity. }
  destruct own as [|o]; [apply (Hf _ E)|].
  apply bind_Ret_inv in E as (held & h2 & _ & E).
  destruct held; [inversion E; reflexivity|].
  apply bind_Ret_inv in E as (b' & h3 & _ & E). apply (Hf _ E).
Qed.

(** A key that differs from its own hash is rejected at once. *)
Lemma setValue_rejects md5_Sum fuel d key value h :
  key <> hashValue md5_Sum key ->
  setValue md5_Sum (S fuel) d key value h = (Ret false, h).
Proof.
  intros Hk. simpl. apply String.eqb_neq in Hk. rewrite Hk. reflexivity.
Qed.

(** C4: [setValue] answers [false], the integrity violation, exactly when
    the key differs from its own hash. *)
Theorem setValue_rejects_iff (md5_Sum : string -> string) (fuel : nat)
    (d : DHTPtr) (key value : string) (h : Heap) :
  setValue md5_Sum (S fuel) d key value h = (Ret false, h)
  <-> key <> hashValue md5_Sum key.
Proof.
  split.
  - intros E Hk.
    pose proof (setValue_accepts md5_Sum fuel d key value h h false Hk E).
    discriminate.
  - apply setValue_rejects.
Qed.

(** A digest of sixteen bytes prints as thirty-two characters, so the
    three-character key of the specification is rejected. *)
Lemma Sprintf_x_length hash :
  String.length (Sprintf_x hash) = (2 * String.length hash)%nat.
Proof. induction hash as [|c r IH]; simpl; [reflexivity | rewrite IH; lia]. Qed.

Lemma setValue_rejects_abc md5_Sum fuel d value h :
  String.length (md5_Sum "abc") = 16%nat ->
  setValue md5_Sum (S fuel) d "abc" value h = (Ret false, h).
Proof.
  intros Hlen. apply setValue_rejects. intros E.
  apply (f_equal String.length) in E. unfold hashValue in E.
  rewrite Sprintf_x_length, Hlen in E. discriminate.
Qed.

(** ** Frame *)

(** C10: neither [setValue] nor [getValue] changes the store, whatever
    they return: every peer, with its identifier, its buckets and its
    table, is after the call what it was before, and no record of the key
    or the value is kept. *)
Theorem setValue_getValue_frame (md5_Sum : string -> string) (fuel : nat)
    (d : DHTPtr) (key value : string) (h : Heap) :
  snd (setValue md5_Sum fuel d key value h) = h /\
  snd (getValue fuel d key h) = h.
Proof.
  split; [apply readonly_setValue | apply readonly_getValue].
Qed.

(** ** Retrieve *)

Lemma getValue_loop_only_empty get nodes :
  (forall a h h' v, get a h = (Ret v, h') -> v = "") ->
  forall h h' v, getValue_loop get nodes h = (Ret v, h') -> v = "".
Proof.
  intros Hg. induction nodes as [|p rest IH]; intros h h' v; simpl.
  - intros E; inversion E; reflexivity.
  - destruct p as [|a]; [discriminate|]. intros E.
    apply bind_Ret_inv in E as (value & h1 & E1 & E).
    apply Hg in E1. subst value. simpl in E. apply (IH _ _ _ E).
Qed.

(** Whatever [getValue] returns is the empty string: no path of the code
    produces anything else. *)
Lemma getValue_only_empty fuel :
  forall d key h h' v, getValue fuel d key h = (Ret v, h') -> v = "".
Proof.
  induction fuel as [|fuel IH]; intros d key h h' v; simpl;
    [discriminate|].
  intros E. apply bind_Ret_inv in E as (own & h1 & _ & E).
  assert (Hf : forall h1,
             bind (findNearestNodes d key)
               (fun nearestNodes =>
                  getValue_loop (fun a => getValue fuel a key) nearestNodes)
               h1 = (Ret v, h') -> v = "").
  { intros h2 E2. apply bind_Ret_inv in E2 as (l & h3 & _ & E2).
    revert E2. apply getValue_loop_only_empty.
    intros a h4 h5 v'. apply IH. }
  destruct own as [|o]; [apply (Hf _ E)|].
  apply bind_Ret_inv in E as (held & h2 & _ & E).
  destruct held; [apply (IH _ _ _ _ _ E) | apply (Hf _ E)].
Qed.

Lemma getValue_no_own fuel d key h x :
  h !! d = Some x -> firstEntry (Peer_dht x) = nilPtr ->
  getValue (S fuel) d key h = (Ret "", h).
Proof.
  intros Hd Hown. simpl.
  rewrite (bind_Ret _ _ h h _ (findOwnNode_Some h d x Hd)), Hown.
  rewrite (bind_Ret _ _ h h _ (findNearestNodes_no_own h d x key Hd Hown)).
  reflexivity.
Qed.

Lemma getValue_held fuel d key h o :
  findOwnNode d h = (Ret (ptr o), h) -> containsKey o key h = (Ret true, h) ->
  getValue (S fuel) d key h = getValue fuel o key h.
Proof.
  intros Hown Hheld. simpl.
  rewrite (bind_Ret _ _ h h _ Hown), (bind_Ret _ _ h h _ Hheld). reflexivity.
Qed.

Lemma getValue_forward fuel d key h o l :
  findOwnNode d h = (Ret (ptr o), h) -> containsKey o key h = (Ret false, h) ->
  findNearestNodes d key h = (Ret l, h) ->
  getValue (S fuel) d key h
  = getValue_loop (fun a => getValue fuel a key) l h.
Proof.
  intros Hown Hheld Hnear. simpl.
  rewrite (bind_Ret _ _ h h _ Hown), (bind_Ret _ _ h h _ Hheld).
  rewrite (bind_Ret _ _ h h _ Hnear). reflexivity.
Qed.

Lemma getValue_loop_all_empty get nodes h :
  (forall p, p ∈ nodes -> exists a, p = ptr a /\ get a h = (Ret "", h)) ->
  getValue_loop get nodes h = (Ret "", h).
Proof.
  induction nodes as [|p rest IH]; intros Hn; simpl; [reflexivity|].
  destruct (Hn p (list_elem_of_here _ _)) as (a & -> & Ea).
  rewrite (bind_Ret _ _ h h _ Ea). simpl.
  apply IH. intros q Hq. apply Hn. apply list_elem_of_further; assumption.
Qed.

(** An empty answer of a candidate counts as no answer: the loop goes on
    to the next candidate. *)
Lemma getValue_loop_skips_empty get a rest h :
  get a h = (Ret "", h) ->
  getValue_loop get (ptr a :: rest) h = getValue_loop get rest h.
Proof. intros Ea. simpl. rewrite (bind_Ret _ _ h h _ Ea). reflexivity. Qed.

(** On the two-cycle [cycle2] the call at A selects A itself and never
    comes back. *)
Lemma getValue_cycle2_OutOfFuel fuel :
  getValue fuel 0 "0" cycle2 = (OutOfFuel, cycle2).
Proof.
  induction fuel as [|fuel IH]; [reflexivity|].
  rewrite (getValue_forward fuel 0 "0" cycle2 0 [ptr 0]);
    [| reflexivity | reflexivity | vm_compute; reflexivity].
  simpl. apply bind_OutOfFuel. exact IH.
Qed.

(** A table that starts with its own peer and holds the key: the call
    hands over to the own node's table, which is the same table, and never
    comes back. *)
Lemma getValue_self_held_OutOfFuel d key h :
  findOwnNode d h = (Ret (ptr d), h) -> containsKey d key h = (Ret true, h) ->
  forall fuel, getValue fuel d key h = (OutOfFuel, h).
Proof.
  intros Hown Hheld fuel. induction fuel as [|fuel IH]; [reflexivity|].
  rewrite (getValue_held fuel d key h d Hown Hheld). exact IH.
Qed.

Lemma containsKey_nodes_total h key nodes :
  Forall (validPtr h) nodes ->
  exists b, containsKey_nodes nodes key h = (Ret b, h).
Proof.
  intros Hn. induction Hn as [|p rest Hp Hrest IH]; simpl.
  - eexists; reflexivity.
  - destruct (validPtr_load h p Hp) as [x Ex].
    rewrite (bind_Ret _ _ h h x Ex).
    destruct (String.eqb _ _); [eexists; reflexivity | exact IH].
Qed.

Lemma containsKey_buckets_total h key bs :
  Forall (validPtr h) (concat (map Bucket_nodes bs)) ->
  exists b, containsKey_buckets bs key h = (Ret b, h).
Proof.
  induction bs as [|b rest IH]; simpl; intros Hn.
  - eexists; reflexivity.
  - apply Forall_app in Hn as [Hb Hrest].
    destruct (containsKey_nodes_total h key _ Hb) as [found Ef].
    rewrite (bind_Ret _ _ h h found Ef).
    destruct found; [eexists; reflexivity | apply IH; assumption].
Qed.

Lemma containsKey_total h key d x :
  closed h -> h !! d = Some x -> exists b, containsKey d key h = (Ret b, h).
Proof.
  intros Hc Hd. unfold containsKey.
  rewrite (bind_Ret _ _ h h _ (loadDHT_Some h d x Hd)).
  apply containsKey_buckets_total. apply (Hc d x Hd).
Qed.

(** When every call goes to a table of smaller rank, a call with more fuel
    than the rank returns the empty string. *)
Lemma getValue_ranked h key (rank : DHTPtr -> nat) :
  closed h ->
  (forall d d', forwards h key d d' -> (rank d' < rank d)%nat) ->
  forall fuel d x,
    h !! d = Some x -> (rank d < fuel)%nat ->
    getValue fuel d key h = (Ret "", h).
Proof.
  intros Hc Hrank. induction fuel as [|fuel IH]; intros d x Hd Hlt; [lia|].
  destruct (firstEntry (Peer_dht x)) as [|o] eqn:Hown.
  - apply (getValue_no_own fuel d key h x Hd Hown).
  - pose proof (findOwnNode_Some h d x Hd) as Eown. rewrite Hown in Eown.
    pose proof (Hc d x Hd) as Hvalid. rewrite Forall_forall in Hvalid.
    destruct (Hvalid _ (firstEntry_in _ _ Hown)) as (o' & xo & Eo & Ho).
    inversion Eo; subst o'.
    destruct (containsKey_total h key o xo Hc Ho) as [held Eheld].
    destruct held.
    + rewrite (getValue_held fuel d key h o Eown Eheld).
      apply (IH o xo Ho).
      assert (rank o < rank d)%nat; [|lia].
      apply Hrank. exists o. split; [assumption|]. left. auto.
    + destruct (findNearestNodes_total h d key x Hd (Hc d x Hd)) as [l El].
      rewrite (getValue_forward fuel d key h o l Eown Eheld El).
      apply getValue_loop_all_empty. intros p Hp.
      destruct (findNearestNodes_Ret_inv h d key l h El) as (_ & _ & Hl).
      destruct (Hl p Hp) as (a & xa & _ & _ & _ & -> & Ha & _).
      exists a. split; [reflexivity|].
      apply (IH a xa Ha).
      assert (rank a < rank d)%nat; [|lia].
      apply Hrank. exists o. split; [assumption|]. right.
      split; [assumption|]. exists l. auto.
Qed.

(** C1, as the code has it: [getValue] keeps no set of visited peers.
    Whenever a call at A returns, it returns the empty string (NotFound)
    and leaves the store as it was; and it does return NotFound, with any
    fuel above the rank of A, when every pointer kept in a table points to
    a peer and the calls go down a rank: from a table to the table of its
    own node when that holds the key, and to the tables of the selected
    nearest nodes otherwise.  That A's table contains B and B's table
    contains A does not matter by itself. *)
Theorem getValue_NotFound_when_ranked (h : Heap) (key : string) (A : DHTPtr) :
  (forall fuel v h', getValue fuel A key h = (Ret v, h') -> v = "" /\ h' = h)
  /\
  (forall (rank : DHTPtr -> nat) (x : Peer),
      closed h ->
      h !! A = Some x ->
      (forall d d', forwards h key d d' -> (rank d' < rank d)%nat) ->
      forall fuel, (rank A < fuel)%nat -> getValue fuel A key h = (Ret "", h)).
Proof.
  split.
  - intros fuel v h' E. split.
    + apply (getValue_only_empty fuel A key h h' v E).
    + apply (run_readonly _ _ _ _ (readonly_getValue fuel A key) E).
  - intros rank x Hc HA Hrank fuel Hlt.
    apply (getValue_ranked h key rank Hc Hrank fuel A x HA Hlt).
Qed.

Lemma lookup_cycle2_converging_None d :
  cycle2_converging !! S (S (S (S d))) = None.
Proof.
  unfold cycle2_converging.
  rewrite !lookup_insert_ne by lia. apply lookup_empty.
Qed.

Lemma closed_cycle2_converging : closed cycle2_converging.
Proof.
  intros a x Ha.
  destruct a as [|[|[|[|a]]]];
    [| | | | rewrite lookup_cycle2_converging_None in Ha; discriminate];
    vm_compute in Ha; inversion Ha; subst x;
    repeat constructor; eexists _, _; (split; [reflexivity|]);
    vm_compute; reflexivity.
Qed.

Lemma forwards_cycle2_converging d d' :
  forwards cycle2_converging "0" d d' ->
  (depth_converging d' < depth_converging d)%nat.
Proof.
  intros (o & Hown & Hcases).
  destruct d as [|[|[|[|d]]]].
  - vm_compute in Hown. inversion Hown; subst o.
    destruct Hcases as [[Hheld _] | (_ & l & Hl & Hin)].
    + vm_compute in Hheld. discriminate.
    + vm_compute in Hl. inversion Hl; subst l.
      apply elem_of_cons in Hin as [E | Hin];
        [inversion E; subst; vm_compute; lia|].
      apply elem_of_cons in Hin as [E | Hin];
        [inversion E; subst; vm_compute; lia|].
      inversion Hin.
  - vm_compute in Hown. inversion Hown; subst o.
    destruct Hcases as [[Hheld _] | (_ & l & Hl & Hin)].
    + vm_compute in Hheld. discriminate.
    + vm_compute in Hl. inversion Hl; subst l.
      apply elem_of_cons in Hin as [E | Hin];
        [inversion E; subst; vm_compute; lia|].
      apply elem_of_cons in Hin as [E | Hin];
        [inversion E; subst; vm_compute; lia|].
      inversion Hin.
  - vm_compute in Hown. discriminate.
  - vm_compute in Hown. discriminate.
  - apply findOwnNode_Ret_inv in Hown as (_ & x & Hx & _).
    rewrite lookup_cycle2_converging_None in Hx. discriminate.
Qed.

Lemma getValue_NotFound_when_ranked_witness :
  getValue 2 0 "0" cycle2_converging = (Ret "", cycle2_converging).
Proof.
  apply (proj2 (getValue_NotFound_when_ranked cycle2_converging "0" 0%nat)
           depth_converging
           (mkNode "4" [[ptr 0; ptr 1; ptr 2; ptr 3]])
           closed_cycle2_converging eq_refl forwards_cycle2_converging).
  vm_compute. lia.
Defined.

(** C1 as stated fails: in [cycle2] A's table is [A, B] and B's table is
    [B, A], the key "0" is held by neither, and [getValue] at A does not
    return, whatever the recursion bound. *)
Lemma getValue_cycle2_diverges :
  cycle2 !! 0%nat = Some (mkNode "1" [[ptr 0; ptr 1]]) /\
  cycle2 !! 1%nat = Some (mkNode "2" [[ptr 1; ptr 0]]) /\
  containsKey 0 "0" cycle2 = (Ret false, cycle2) /\
  containsKey 1 "0" cycle2 = (Ret false, cycle2) /\
  forall fuel, getValue fuel 0 "0" cycle2 = (OutOfFuel, cycle2).
Proof.
  repeat split. apply getValue_cycle2_OutOfFuel.
Qed.

(** ** Store *)

Section Store.

Variable md5_Sum : string -> string.

Lemma setValue_Ret_true_valid fuel d key value h h' :
  setValue md5_Sum fuel d key value h = (Ret true, h') ->
  key = hashValue md5_Sum key.
Proof.
  destruct fuel as [|fuel]; simpl; [discriminate|].
  destruct (String.eqb key (hashValue md5_Sum key)) eqn:E; simpl.
  - intros _. apply String.eqb_eq; assumption.
  - discriminate.
Qed.

Lemma setValue_no_own fuel d key value h x :
  key = hashValue md5_Sum key ->
  h !! d = Some x -> firstEntry (Peer_dht x) = nilPtr ->
  setValue md5_Sum (S fuel) d key value h = (Ret true, h).
Proof.
  intros Hk Hd Hown. simpl. rewrite <- Hk, String.eqb_refl. simpl.
  rewrite (bind_Ret _ _ h h _ (findOwnNode_Some h d x Hd)), Hown.
  rewrite (bind_Ret _ _ h h _ (findNearestNodes_no_own h d x key Hd Hown)).
  reflexivity.
Qed.

Lemma setValue_held fuel d key value h o :
  key = hashValue md5_Sum key ->
  findOwnNode d h = (Ret (ptr o), h) -> containsKey o key h = (Ret true, h) ->
  setValue md5_Sum (S fuel) d key value h = (Ret true, h).
Proof.
  intros Hk Hown Hheld. simpl. rewrite <- Hk, String.eqb_refl. simpl.
  rewrite (bind_Ret _ _ h h _ Hown), (bind_Ret _ _ h h _ Hheld). reflexivity.
Qed.

(** A table that starts with its own peer and does not hold the key: a
    valid key is first stored at the own node's table, which is the same
    table, and the call never comes back. *)
Lemma setValue_self_OutOfFuel d key value h :
  key = hashValue md5_Sum key ->
  findOwnNode d h = (Ret (ptr d), h) -> containsKey d key h = (Ret false, h) ->
  forall fuel, setValue md5_Sum fuel d key value h = (OutOfFuel, h).
Proof.
  intros Hk Hown Hheld fuel. induction fuel as [|fuel IH]; [reflexivity|].
  simpl. rewrite <- Hk, String.eqb_refl. simpl.
  rewrite (bind_Ret _ _ h h _ Hown), (bind_Ret _ _ h h _ Hheld).
  apply bind_OutOfFuel. exact IH.
Qed.

(** A second call sees the store of the first and answers the same. *)
Lemma setValue_again fuel d key value h h1 r :
  setValue md5_Sum fuel d key value h = (r, h1) ->
  h1 = h /\ setValue md5_Sum fuel d key value h1 = (r, h1).
Proof.
  intros E.
  pose proof (run_readonly _ _ _ _ (readonly_setValue md5_Sum fuel d key value) E).
  subst h1. auto.
Qed.

End Store.

(** X20: [setValue] keeps no record.  After a call that accepted the pair
    at a peer, the store is what it was, and [getValue] for the key at
    that peer, whenever it returns, returns the empty string, whatever the
    value was; it does return it when the peer's table has no own node. *)
Theorem getValue_after_setValue (md5_Sum : string -> string) (fuel : nat)
    (P : DHTPtr) (key value : string) (h h1 : Heap) :
  setValue md5_Sum fuel P key value h = (Ret true, h1) ->
  h1 = h /\
  (forall fuel' v h2,
      getValue fuel' P key h1 = (Ret v, h2) -> v = "" /\ h2 = h) /\
  (forall fuel' x,
      h !! P = Some x -> firstEntry (Peer_dht x) = nilPtr ->
      getValue (S fuel') P key h1 = (Ret "", h)).
Proof.
  intros E. apply setValue_again in E as [-> _].
  split; [reflexivity|]. split.
  - intros fuel' v h2 E. split.
    + apply (getValue_only_empty fuel' P key h h2 v E).
    + apply (run_readonly _ _ _ _ (readonly_getValue fuel' P key) E).
  - intros fuel' x HP Hown. apply (getValue_no_own fuel' P key h x HP Hown).
Qed.

Lemma getValue_after_setValue_witness :
  getValue 1 0 zeroKey lonely = (Ret "", lonely).
Proof.
  apply (getValue_after_setValue zeroSum 1 0%nat zeroKey "v" lonely lonely
           eq_refl)
    with (x := mkPeer "1" [] NewDHT); reflexivity.
Defined.

(** Retrieve after store holds of the code exactly when no key equals its
    own printed digest, that is, when [setValue] accepts nothing.  A key
    that the check lets through is accepted at a peer with the table of
    [NewDHT], and [getValue] then returns the empty string. *)
Lemma retrieveAfterStore_iff_no_fixed_point (md5_Sum : string -> string) :
  retrieveAfterStore md5_Sum <-> forall key, key <> hashValue md5_Sum key.
Proof.
  split.
  - intros Hclaim key Hk.
    assert (Eset : setValue md5_Sum 1 0 key "v" lonely = (Ret true, lonely)).
    { apply (setValue_no_own md5_Sum 0 0%nat key "v" lonely
               (mkPeer "1" [] NewDHT) Hk); reflexivity. }
    destruct (Hclaim _ _ _ _ _ _ Eset) as [fuel' Eget].
    apply getValue_only_empty in Eget. discriminate.
  - intros Hno fuel P key value h h1 E.
    apply setValue_Ret_true_valid in E. destruct (Hno key E).
Qed.

(** X21: for a valid pair and a peer whose table has no own node, or
    whose own node's table already holds the key, [setValue] returns
    [true] both times and leaves the store as it was: no record is made,
    and the number of entries that stand for the key at the peer is what
    it was before the calls. *)
Theorem setValue_twice (md5_Sum : string -> string) (fuel : nat)
    (P : DHTPtr) (key value : string) (h : Heap) (x : Peer) :
  key = hashValue md5_Sum key ->
  h !! P = Some x ->
  (firstEntry (Peer_dht x) = nilPtr \/
   exists o, firstEntry (Peer_dht x) = ptr o /\
             containsKey o key h = (Ret true, h)) ->
  exists h1 h2,
    setValue md5_Sum (S fuel) P key value h = (Ret true, h1) /\
    setValue md5_Sum (S fuel) P key value h1 = (Ret true, h2) /\
    h2 = h /\
    keyEntries h2 P key = keyEntries h P key.
Proof.
  intros Hk HP Hcase.
  assert (E : setValue md5_Sum (S fuel) P key value h = (Ret true, h)).
  { destruct Hcase as [Hown | (o & Hown & Hheld)].
    - apply (setValue_no_own md5_Sum fuel P key value h x Hk HP Hown).
    - apply (setValue_held md5_Sum fuel P key value h o Hk); [|assumption].
      rewrite (findOwnNode_Some h P x HP), Hown. reflexivity. }
  exists h, h. repeat split; assumption.
Qed.

Lemma setValue_twice_witness :
  exists h1 h2,
    setValue zeroSum 1 0 zeroKey "v" lonely = (Ret true, h1) /\
    setValue zeroSum 1 0 zeroKey "v" h1 = (Ret true, h2) /\
    h2 = lonely /\
    keyEntries h2 0 zeroKey = keyEntries lonely 0 zeroKey.
Proof.
  apply (setValue_twice zeroSum 0 0%nat zeroKey "v" lonely
           (mkPeer "1" [] NewDHT)).
  - reflexivity.
  - reflexivity.
  - left. reflexivity.
Defined.

(** Store idempotence with exactly one record holds of the code exactly
    when no key equals its own printed digest.  A key that the check lets
    through is accepted twice at a peer with the table of [NewDHT], which
    then has no entry for the key. *)
Lemma storeIdempotent_iff_no_fixed_point (md5_Sum : string -> string) :
  storeIdempotent md5_Sum <-> forall key, key <> hashValue md5_Sum key.
Proof.
  split.
  - intros Hclaim key Hk.
    destruct (Hclaim 0%nat key "v" lonely (mkPeer "1" [] NewDHT) Hk eq_refl)
      as (fuel & h1 & h2 & E1 & E2 & Hone).
    apply setValue_again in E1 as [-> _].
    apply setValue_again in E2 as [-> _].
    vm_compute in Hone. discriminate.
  - intros Hno P key value h x Hk. destruct (Hno key Hk).
Qed.

(** C9, as the code has it: NotFound is the empty string itself.  A call
    on a table without own node returns the empty string; whatever
    [getValue] returns is the empty string; and in the loop over the
    candidates an empty answer counts as no answer. *)
Theorem getValue_NotFound_is_empty (key : string) (h : Heap) :
  (forall fuel d x,
      h !! d = Some x -> firstEntry (Peer_dht x) = nilPtr ->
      getValue (S fuel) d key h = (Ret "", h)) /\
  (forall fuel' d' v h', getValue fuel' d' key h = (Ret v, h') -> v = "") /\
  (forall get a rest,
      get a h = (Ret "", h) ->
      getValue_loop get (ptr a :: rest) h = getValue_loop get rest h).
Proof.
  split; [|split].
  - intros fuel d x Hd Hown. apply (getValue_no_own fuel d key h x Hd Hown).
  - intros fuel' d' v h'. apply getValue_only_empty.
  - intros get a rest. apply getValue_loop_skips_empty.
Qed.

Lemma getValue_NotFound_is_empty_witness :
  getValue 1 0 "k" lonely = (Ret "", lonely).
Proof.
  apply (proj1 (getValue_NotFound_is_empty "k" lonely) 0%nat 0%nat
           (mkPeer "1" [] NewDHT));
    reflexivity.
Defined.

(** C9 as stated fails: on the only peer of [lonely], which has nothing to
    answer, [getValue] returns the empty string, the very value of an empty
    record; and a candidate that answers with the empty string leaves the
    caller with the result it has without any candidate. *)
Lemma getValue_NotFound_not_distinct :
  getValue 1 0 "k" lonely = (Ret EmptyString, lonely) /\
  getValue_loop (fun _ => ret EmptyString) [ptr 1] lonely
  = getValue_loop (fun _ => ret EmptyString) [] lonely.
Proof. split; reflexivity. Qed.

(** ** The recursion bound

    A call that came to an end within the bound, by returning or by a
    panic, ends in the same way under any larger bound: only the outcome
    [OutOfFuel] depends on the bound, and a call that yields it under every
    bound is a call that does not end. *)

Lemma getValue_S fuel d key :
  getValue (S fuel) d key =
  (ownNode <- findOwnNode d ;;
   let forward :=
     nearestNodes <- findNearestNodes d key ;;
     getValue_loop (fun a => getValue fuel a key) nearestNodes in
   match ownNode with
   | nilPtr => forward
   | ptr own =>
       held <- containsKey own key ;;
       if held then getValue fuel own key else forward
   end).
Proof. reflexivity. Qed.

Lemma setValue_S md5_Sum fuel d key value :
  setValue md5_Sum (S fuel) d key value =
  (if negb (String.eqb key (hashValue md5_Sum key)) then ret false
   else
     ownNode <- findOwnNode d ;;
     let forward :=
       nearestNodes <- findNearestNodes d key ;;
       _ <- setValue_loop (fun a => setValue md5_Sum fuel a key value)
              nearestNodes ;;
       ret true in
     match ownNode with
     | nilPtr => forward
     | ptr own =>
         held <- containsKey own key ;;
         if held then ret true
         else _ <- setValue md5_Sum fuel own key value ;; forward
     end).
Proof. reflexivity. Qed.

Lemma bind_mono {A B} (m : M A) (f f' : A -> M B) h r h' :
  (forall a h1, f a h1 = (r, h') -> r <> OutOfFuel -> f' a h1 = (r, h')) ->
  bind m f h = (r, h') -> r <> OutOfFuel -> bind m f' h = (r, h').
Proof.
  intros Hf E Hr. unfold bind in *.
  destruct (m h) as [[a| |] h1]; [apply Hf; assumption | assumption | assumption].
Qed.

Lemma getValue_loop_mono get get' nodes :
  (forall a h r h', get a h = (r, h') -> r <> OutOfFuel -> get' a h = (r, h')) ->
  forall h r h',
    getValue_loop get nodes h = (r, h') -> r <> OutOfFuel ->
    getValue_loop get' nodes h = (r, h').
Proof.
  intros Hg. induction nodes as [|p rest IH]; intros h r h' E Hr; simpl in *;
    [assumption|].
  destruct p as [|a]; [assumption|].
  unfold bind in *. destruct (get a h) as [[v| |] h1] eqn:Ea.
  - rewrite (Hg a h _ _ Ea) by discriminate.
    destruct (negb _); [assumption | apply IH; assumption].
  - rewrite (Hg a h _ _ Ea) by discriminate. assumption.
  - inversion E; subst. contradiction.
Qed.

Lemma getValue_fuel_S fuel :
  forall d key h r h',
    getValue fuel d key h = (r, h') -> r <> OutOfFuel ->
    getValue (S fuel) d key h = (r, h').
Proof.
  induction fuel as [|fuel IH]; intros d key h r h' E Hr.
  - inversion E; subst. contradiction.
  - rewrite getValue_S in E. rewrite (getValue_S (S fuel)).
    revert E Hr. apply bind_mono. intros own h1.
    assert (Hf : forall h2,
      bind (findNearestNodes d key) (fun nearestNodes =>
        getValue_loop (fun a => getValue fuel a key) nearestNodes) h2
      = (r, h') -> r <> OutOfFuel ->
      bind (findNearestNodes d key) (fun nearestNodes =>
        getValue_loop (fun a => getValue (S fuel) a key) nearestNodes) h2
      = (r, h')).
    { intros h2. apply bind_mono. intros l h3.
      apply getValue_loop_mono. intros a h4 r' h5. apply IH. }
    destruct own as [|o]; cbv zeta; [apply Hf|].
    apply bind_mono. intros held h2.
    destruct held; [apply IH | apply Hf].
Qed.

(** A result of [getValue] is kept under every larger bound. *)
Lemma getValue_fuel_mono fuel fuel' d key h r h' :
  (fuel <= fuel')%nat ->
  getValue fuel d key h = (r, h') -> r <> OutOfFuel ->
  getValue fuel' d key h = (r, h').
Proof.
  intros Hle E Hr. induction Hle as [|m Hle IH]; [assumption|].
  apply getValue_fuel_S; assumption.
Qed.

Lemma setValue_loop_mono set set' nodes :
  (forall a h r h', set a h = (r, h') -> r <> OutOfFuel -> set' a h = (r, h')) ->
  forall h r h',
    setValue_loop set nodes h = (r, h') -> r <> OutOfFuel ->
    setValue_loop set' nodes h = (r, h').
Proof.
  intros Hs. induction nodes as [|p rest IH]; intros h r h' E Hr; simpl in *;
    [assumption|].
  destruct p as [|a]; [assumption|].
  unfold bind in *. destruct (set a h) as [[v| |] h1] eqn:Ea.
  - rewrite (Hs a h _ _ Ea) by discriminate. apply IH; assumption.
  - rewrite (Hs a h _ _ Ea) by discriminate. assumption.
  - inversion E; subst. contradiction.
Qed.

Lemma setValue_fuel_S md5_Sum fuel :
  forall d key value h r h',
    setValue md5_Sum fuel d key value h = (r, h') -> r <> OutOfFuel ->
    setValue md5_Sum (S fuel) d key value h = (r, h').
Proof.
  induction fuel as [|fuel IH]; intros d key value h r h' E Hr.
  - inversion E; subst. contradiction.
  - rewrite setValue_S in E. rewrite (setValue_S md5_Sum (S fuel)).
    destruct (negb (String.eqb key (hashValue md5_Sum key))); [assumption|].
    revert E Hr. apply bind_mono. intros own h1.
    assert (Hf : forall h2,
      bind (findNearestNodes d key) (fun nearestNodes =>
        bind (setValue_loop (fun a => setValue md5_Sum fuel a key value)
                nearestNodes) (fun _ => ret true)) h2
      = (r, h') -> r <> OutOfFuel ->
      bind (findNearestNodes d key) (fun nearestNodes =>
        bind (setValue_loop (fun a => setValue md5_Sum (S fuel) a key value)
                nearestNodes) (fun _ => ret true)) h2
      = (r, h')).
    { intros h2. apply bind_mono. intros l h3. unfold bind.
      destruct (setValue_loop (fun a => setValue md5_Sum fuel a key value)
                  l h3) as [ru hu] eqn:El.
      destruct ru as [u| |]; intros E Hr.
      - rewrite (setValue_loop_mono _
                   (fun a => setValue md5_Sum (S fuel) a key value) l
                   (fun a h4 r' h5 => IH a key value h4 r' h5) _ _ _ El)
          by discriminate.
        assumption.
      - rewrite (setValue_loop_mono _
                   (fun a => setValue md5_Sum (S fuel) a key value) l
                   (fun a h4 r' h5 => IH a key value h4 r' h5) _ _ _ El)
          by discriminate.
        assumption.
      - inversion E; subst. contradiction. }
    destruct own as [|o]; cbv zeta; [apply Hf|].
    apply bind_mono. intros held h2.
    destruct held; [auto|].
    intros E Hr. unfold bind at 1 in E. unfold bind at 1.
    destruct (setValue md5_Sum fuel o key value h2) as [ro ho] eqn:Eo.
    destruct ro as [b| |].
    + rewrite (IH _ _ _ _ _ _ Eo) by discriminate. apply Hf; assumption.
    + rewrite (IH _ _ _ _ _ _ Eo) by discriminate. assumption.
    + inversion E; subst. contradiction.
Qed.

(** A result of [setValue] is kept under every larger bound. *)
Lemma setValue_fuel_mono md5_Sum fuel fuel' d key value h r h' :
  (fuel <= fuel')%nat ->
  setValue md5_Sum fuel d key value h = (r, h') -> r <> OutOfFuel ->
  setValue md5_Sum fuel' d key value h = (r, h').
Proof.
  intros Hle E Hr. induction Hle as [|m Hle IH]; [assumption|].
  apply setValue_fuel_S; assumption.
Qed.

(** * Further properties of the code *)

(** ** Distance: metric laws and exactness *)

(** X1: the distance is symmetric, and the distance of an identifier to
    itself is zero, for all strings. *)
Theorem calculateDistance_sym_refl (id1 id2 : string) :
  calculateDistance id1 id2 = calculateDistance id2 id1 /\
  calculateDistance id1 id1 = 0%Z.
Proof.
  unfold calculateDistance. split.
  - rewrite Z.lxor_comm. reflexivity.
  - rewrite Z.lxor_nilpotent. reflexivity.
Qed.

Lemma natScan_bounds s :
  forall z, (0 <= z)%Z ->
  (0 <= natScan s 16 z < (z + 1) * 16 ^ Z.of_nat (String.length s))%Z.
Proof.
  induction s as [|ch r IH]; intros z Hz; simpl String.length.
  - simpl. lia.
  - rewrite Nat2Z.inj_succ, Z.pow_succ_r by lia. simpl natScan.
    assert (Hp : (0 < 16 ^ Z.of_nat (String.length r))%Z)
      by (apply Z.pow_pos_nonneg; lia).
    destruct (16 <=? digitVal ch)%Z eqn:Ed.
    + nia.
    + apply Z.leb_gt in Ed.
      assert (Hd : (0 <= digitVal ch)%Z).
      { unfold digitVal.
        repeat match goal with
               | |- context [if ?b then _ else _] => destruct b eqn:?
               end; lia. }
      specialize (IH (z * 16 + digitVal ch)%Z ltac:(lia)). nia.
Qed.

(** The magnitude of a parsed identifier is below 16 to the number of its
    characters. *)
Lemma SetString_bounds s :
  (Z.abs (SetString s 16) < 16 ^ Z.of_nat (String.length s))%Z.
Proof.
  destruct s as [|ch r]; [simpl; lia|].
  unfold SetString.
  pose proof (natScan_bounds r 0%Z ltac:(lia)) as Hr.
  pose proof (natScan_bounds (String ch r) 0%Z ltac:(lia)) as Hs.
  assert (Hmono : (16 ^ Z.of_nat (String.length r)
                   <= 16 ^ Z.of_nat (String.length (String ch r)))%Z).
  { apply Z.pow_le_mono_r; simpl String.length; lia. }
  destruct (Ascii.eqb ch "-"); [|destruct (Ascii.eqb ch "+")]; lia.
Qed.

(** X2: on identifiers of at most fifteen characters that do not parse to
    a negative number, the distance is the exclusive or of the two numbers:
    it is not negative, and it is zero exactly when the two identifiers
    spell the same number. *)
Theorem calculateDistance_short_ids (id1 id2 : string) :
  (String.length id1 <= 15)%nat -> (String.length id2 <= 15)%nat ->
  (0 <= SetString id1 16)%Z -> (0 <= SetString id2 16)%Z ->
  calculateDistance id1 id2 = Z.lxor (SetString id1 16) (SetString id2 16) /\
  (0 <= calculateDistance id1 id2)%Z /\
  (calculateDistance id1 id2 = 0%Z <-> SetString id1 16 = SetString id2 16).
Proof.
  intros L1 L2 N1 N2.
  assert (B : forall s, (String.length s <= 15)%nat -> (0 <= SetString s 16)%Z ->
                        (0 <= SetString s 16 < 2 ^ 63)%Z).
  { intros s L N. pose proof (SetString_bounds s) as Hb.
    assert ((16 ^ Z.of_nat (String.length s) <= 16 ^ 15)%Z)
      by (apply Z.pow_le_mono_r; lia).
    assert ((16 ^ 15 < 2 ^ 63)%Z) by reflexivity. lia. }
  pose proof (calculateDistance_exact id1 id2 (B _ L1 N1) (B _ L2 N2)) as E.
  split; [exact E|]. rewrite E. split.
  - apply Z.lxor_nonneg. lia.
  - apply Z.lxor_eq_0_iff.
Qed.

Lemma calculateDistance_short_ids_witness :
  calculateDistance "15999" "abc" = Z.lxor (SetString "15999" 16) (SetString "abc" 16).
Proof.
  apply (calculateDistance_short_ids "15999" "abc"); vm_compute;
    try lia; discriminate.
Defined.

(** ** Hashing: the printed digest *)

Lemma digitVal_hexDigit n :
  (n < 16)%N -> digitVal (hexDigit n) = Z.of_N n /\ isLowerHex (hexDigit n) = true.
Proof.
  intros Hn.
  assert (H : forallb (fun k => (digitVal (hexDigit (N.of_nat k)) =? Z.of_nat k)%Z
                                && isLowerHex (hexDigit (N.of_nat k)))
                (seq 0 16) = true) by (vm_compute; reflexivity).
  rewrite forallb_forall in H.
  specialize (H (N.to_nat n)). rewrite N2Nat.id in H.
  destruct (andb_prop _ _ (H ltac:(apply in_seq; lia))) as [H1 H2].
  apply Z.eqb_eq in H1. rewrite Z_N_nat in H1 || rewrite N_nat_Z in H1.
  split; assumption.
Qed.

Lemma N_of_ascii_bound c : (N_of_ascii c < 256)%N.
Proof.
  destruct c as [[] [] [] [] [] [] [] []]; vm_compute; reflexivity.
Qed.

Lemma natScan_Sprintf_x bytes :
  forall z, natScan (Sprintf_x bytes) 16 z = bytesValue bytes z.
Proof.
  induction bytes as [|c r IH]; intros z; [reflexivity|].
  pose proof (N_of_ascii_bound c) as Hc.
  assert (Hhi : (N_of_ascii c / 16 < 16)%N)
    by (apply N.Div0.div_lt_upper_bound; lia).
  assert (Hlo : (N_of_ascii c mod 16 < 16)%N) by (apply N.mod_lt; lia).
  destruct (digitVal_hexDigit _ Hhi) as [Dhi _].
  destruct (digitVal_hexDigit _ Hlo) as [Dlo _].
  cbn [Sprintf_x natScan bytesValue]. cbv zeta. rewrite Dhi, Dlo.
  assert (E1 : (16 <=? Z.of_N (N_of_ascii c / 16))%Z = false)
    by (apply Z.leb_gt; lia).
  assert (E2 : (16 <=? Z.of_N (N_of_ascii c mod 16))%Z = false)
    by (apply Z.leb_gt; lia).
  rewrite E1, E2, IH. f_equal.
  pose proof (N.div_mod (N_of_ascii c) 16 ltac:(lia)). lia.
Qed.

(** X3: the hash of a key is printed as two lower-case hexadecimal digits
    per byte of the digest, and parsing it back as an identifier gives the
    number that the digest spells, most significant byte first. *)
Theorem hashValue_hex (md5_Sum : string -> string) (key : string) :
  String.length (hashValue md5_Sum key)
  = (2 * String.length (md5_Sum key))%nat /\
  forallb isLowerHex (list_ascii_of_string (hashValue md5_Sum key)) = true /\
  SetString (hashValue md5_Sum key) 16 = bytesValue (md5_Sum key) 0.
Proof.
  unfold hashValue. split; [apply Sprintf_x_length|]. split.
  - induction (md5_Sum key) as [|c r IH]; [reflexivity|].
    pose proof (N_of_ascii_bound c) as Hc.
    assert (Hhi : (N_of_ascii c / 16 < 16)%N)
      by (apply N.Div0.div_lt_upper_bound; lia).
    assert (Hlo : (N_of_ascii c mod 16 < 16)%N) by (apply N.mod_lt; lia).
    cbn [Sprintf_x list_ascii_of_string forallb].
    rewrite (proj2 (digitVal_hexDigit _ Hhi)), (proj2 (digitVal_hexDigit _ Hlo)).
    exact IH.
  - rewrite <- natScan_Sprintf_x.
    destruct (md5_Sum key) as [|c r]; [reflexivity|].
    pose proof (N_of_ascii_bound c) as Hc.
    assert (Hhi : (N_of_ascii c / 16 < 16)%N)
      by (apply N.Div0.div_lt_upper_bound; lia).
    pose proof (proj2 (digitVal_hexDigit _ Hhi)) as Hx.
    cbn [Sprintf_x]. unfold SetString.
    set (hd := hexDigit (N_of_ascii c / 16)) in *.
    assert (Ascii.eqb hd "-" = false /\ Ascii.eqb hd "+" = false) as [-> ->];
      [|reflexivity].
    split; apply Ascii.eqb_neq; intros E; rewrite E in Hx;
      vm_compute in Hx; discriminate.
Qed.

(** ** [containsKey] on whole tables *)

Lemma containsKey_nodes_app l1 l2 key h :
  containsKey_nodes (l1 ++ l2) key h
  = (found <- containsKey_nodes l1 key ;;
     if found then ret true else containsKey_nodes l2 key) h.
Proof.
  induction l1 as [|p rest IH]; simpl; [reflexivity|].
  unfold bind in *. destruct (loadPeer p h) as [[x| |] h1] eqn:Ep;
    try reflexivity.
  pose proof (run_readonly _ _ _ _ (readonly_loadPeer p) Ep); subst h1.
  destruct (String.eqb (Peer_id x) key); [reflexivity | exact IH].
Qed.

Lemma containsKey_buckets_concat bs key h :
  containsKey_buckets bs key h
  = containsKey_nodes (concat (map Bucket_nodes bs)) key h.
Proof.
  induction bs as [|b rest IH]; simpl; [reflexivity|].
  rewrite containsKey_nodes_app. unfold bind.
  destruct (containsKey_nodes (Bucket_nodes b) key h) as [[found| |] h1] eqn:Eb;
    try reflexivity.
  pose proof (run_readonly _ _ _ _ (readonly_containsKey_nodes _ key) Eb);
    subst h1.
  destruct found; [reflexivity | exact IH].
Qed.

Lemma containsKey_nodes_true nodes key h h' :
  containsKey_nodes nodes key h = (Ret true, h') ->
  exists p, p ∈ nodes /\ holdsKey h key p = true.
Proof.
  induction nodes as [|p rest IH]; simpl; [discriminate|]. intros E.
  apply bind_Ret_inv in E as (x & h1 & Ex & E).
  apply loadPeer_Ret_inv in Ex as (-> & a & -> & Ha).
  destruct (String.eqb (Peer_id x) key) eqn:Ek.
  - exists (ptr a). split; [apply list_elem_of_here|].
    simpl. rewrite Ha. exact Ek.
  - destruct (IH E) as (q & Hq & Hk). exists q.
    split; [apply list_elem_of_further; assumption | assumption].
Qed.

Lemma containsKey_nodes_false nodes key h h' :
  containsKey_nodes nodes key h = (Ret false, h') ->
  Forall (fun p => validPtr h p /\ holdsKey h key p = false) nodes.
Proof.
  induction nodes as [|p rest IH]; simpl; [constructor|]. intros E.
  apply bind_Ret_inv in E as (x & h1 & Ex & E).
  apply loadPeer_Ret_inv in Ex as (-> & a & -> & Ha).
  destruct (String.eqb (Peer_id x) key) eqn:Ek; [discriminate|].
  constructor; [|apply IH; assumption].
  split; [exists a, x; auto|]. simpl. rewrite Ha. exact Ek.
Qed.

Lemma containsKey_nodes_valid nodes key h :
  Forall (validPtr h) nodes ->
  containsKey_nodes nodes key h = (Ret (existsb (holdsKey h key) nodes), h).
Proof.
  intros Hn. induction Hn as [|p rest Hp Hrest IH]; simpl; [reflexivity|].
  destruct Hp as (a & x & -> & Ha).
  rewrite (bind_Ret _ _ h h x (loadPeer_Some h a x Ha)).
  simpl. rewrite Ha.
  destruct (String.eqb (Peer_id x) key); [reflexivity | exact IH].
Qed.

Lemma existsb_filter_length {A} (f : A -> bool) (l : list A) :
  existsb f l = true <-> (0 < length (List.filter f l))%nat.
Proof.
  induction l as [|a rest IH]; simpl; [split; [discriminate | lia]|].
  destruct (f a); simpl; [split; [lia | reflexivity] | exact IH].
Qed.

(** X4: [containsKey] answers [true] only if an entry of the table is a
    peer whose identifier is the key, and [false] only if every entry
    points to a peer and none of them has the key as identifier; when no
    entry is nil it does answer, and the answer is [true] exactly when the
    table has at least one entry for the key. *)
Theorem containsKey_spec (h : Heap) (d : DHTPtr) (x : Peer) (key : string) :
  h !! d = Some x ->
  (forall h', containsKey d key h = (Ret true, h') ->
     exists p, p ∈ allNodes (Peer_dht x) /\ holdsKey h key p = true) /\
  (forall h', containsKey d key h = (Ret false, h') ->
     Forall (fun p => validPtr h p /\ holdsKey h key p = false)
       (allNodes (Peer_dht x))) /\
  (Forall (validPtr h) (allNodes (Peer_dht x)) ->
   exists b, containsKey d key h = (Ret b, h) /\
             (b = true <-> (0 < keyEntries h d key)%nat)).
Proof.
  intros Hd.
  assert (E : containsKey d key h
              = containsKey_nodes (allNodes (Peer_dht x)) key h).
  { unfold containsKey.
    rewrite (bind_Ret _ _ h h _ (loadDHT_Some h d x Hd)).
    apply containsKey_buckets_concat. }
  rewrite E. split; [|split].
  - intros h'. apply containsKey_nodes_true.
  - intros h'. apply containsKey_nodes_false.
  - intros Hvalid. eexists. split; [apply containsKey_nodes_valid; assumption|].
    unfold keyEntries. rewrite Hd. apply existsb_filter_length.
Qed.

Lemma containsKey_spec_witness :
  exists b, containsKey 0 "2" cycle2 = (Ret b, cycle2) /\
            (b = true <-> (0 < keyEntries cycle2 0 "2")%nat).
Proof.
  apply (containsKey_spec cycle2 0%nat (mkNode "1" [[ptr 0; ptr 1]]) "2" eq_refl).
  repeat constructor; eexists _, _; (split; [reflexivity|]);
    vm_compute; reflexivity.
Defined.

(** ** The order of the candidates *)

Lemma Ascii_compare_eq c1 c2 : Ascii.compare c1 c2 = Eq -> c1 = c2.
Proof. apply Ascii.compare_eq_iff. Qed.














(** ** The driver: random numbers and strings *)

Lemma iobind_Ret {A B} (m : IO A) (f : A -> IO B) w w' a :
  m w = (Ret a, w') -> iobind m f w = f a w'.
Proof. intros E. unfold iobind. rewrite E. reflexivity. Qed.

Lemma sameButRand_refl w : sameButRand w w.
Proof. repeat split. Qed.

Lemma sameButRand_trans w1 w2 w3 :
  sameButRand w1 w2 -> sameButRand w2 w3 -> sameButRand w1 w3.
Proof.
  intros (H1 & H2 & H3) (H1' & H2' & H3').
  repeat split; congruence.
Qed.

Lemma sameButRand_drawn w : sameButRand w (drawn w).
Proof. repeat split. Qed.

Lemma Intn_pos n w :
  (0 < n)%Z ->
  Intn n w = (Ret (Z.of_nat (W_rand w 0) mod n)%Z, drawn w) /\
  (0 <= Z.of_nat (W_rand w 0) mod n < n)%Z.
Proof.
  intros Hn. unfold Intn.
  destruct (n <=? 0)%Z eqn:E; [apply Z.leb_le in E; lia|].
  split; [reflexivity | apply Z.mod_pos_bound; assumption].
Qed.

Lemma wrap64_eq z k :
  (- 2 ^ 63 <= z + k * 2 ^ 64 < 2 ^ 63)%Z -> wrap64 z = (z + k * 2 ^ 64)%Z.
Proof.
  intros Hz. unfold wrap64.
  rewrite <- (Z_mod_plus_full (z + 2 ^ 63) k (2 ^ 64)).
  rewrite Z.mod_small by lia. lia.
Qed.

Lemma wrap64_add_l a b : wrap64 (wrap64 a + b) = wrap64 (a + b).
Proof.
  unfold wrap64. f_equal.
  replace ((a + 2 ^ 63) mod 2 ^ 64 - 2 ^ 63 + b + 2 ^ 63)%Z
    with ((a + 2 ^ 63) mod 2 ^ 64 + b)%Z by lia.
  rewrite Zplus_mod_idemp_l. f_equal. lia.
Qed.

(** The argument that [getRandomInt] hands to [rand.Intn]. *)
Lemma getRandomInt_span min max :
  intAdd (intSub max min) 1 = wrap64 (max - min + 1).
Proof. unfold intAdd, intSub. apply wrap64_add_l. Qed.

Lemma getRandomInt_ok min max w :
  (- 2 ^ 63 <= min)%Z -> (max < 2 ^ 63)%Z ->
  (min <= max)%Z -> (max - min < 2 ^ 63 - 1)%Z ->
  exists r, getRandomInt min max w = (Ret r, drawn w) /\ (min <= r <= max)%Z.
Proof.
  intros Hmin Hmax Hle Hspan. unfold getRandomInt.
  rewrite getRandomInt_span.
  rewrite (wrap64_eq (max - min + 1) 0) by lia.
  replace (max - min + 1 + 0 * 2 ^ 64)%Z with (max - min + 1)%Z by lia.
  destruct (Intn_pos (max - min + 1) w ltac:(lia)) as [E Hr].
  rewrite (iobind_Ret _ _ _ _ _ E). eexists. split; [reflexivity|].
  unfold intAdd.
  rewrite (wrap64_eq _ 0) by lia. lia.
Qed.

Lemma getRandomInt_panics min max w :
  (wrap64 (max - min + 1) <= 0)%Z -> getRandomInt min max w = (Panic, w).
Proof.
  intros Hn. unfold getRandomInt. rewrite getRandomInt_span.
  unfold iobind, Intn.
  destruct (wrap64 (max - min + 1) <=? 0)%Z eqn:E; [reflexivity|].
  apply Z.leb_gt in E. lia.
Qed.

(** X8: [getRandomInt(min, max)] on Go's 64-bit [int].  With
    [min <= max] and a span [max - min + 1] that fits an [int] it draws one
    random number and returns a number from [min] to [max]; when the span
    overflows it panics, as it does with [max < min], because [rand.Intn]
    gets an argument that is not positive; and when [max] is so far below
    [min] that the span wraps around to a positive number it does not
    panic. *)
Theorem getRandomInt_range (min max : Z) (w : World) :
  (- 2 ^ 63 <= min < 2 ^ 63)%Z ->
  (- 2 ^ 63 <= max < 2 ^ 63)%Z ->
  ((min <= max)%Z -> (max - min < 2 ^ 63 - 1)%Z ->
   exists r, getRandomInt min max w = (Ret r, drawn w) /\ (min <= r <= max)%Z)
  /\
  ((min <= max)%Z -> (2 ^ 63 - 1 <= max - min)%Z ->
   getRandomInt min max w = (Panic, w))
  /\
  ((max < min)%Z -> (- 2 ^ 63 - 1 <= max - min)%Z ->
   getRandomInt min max w = (Panic, w))
  /\
  ((max - min < - 2 ^ 63 - 1)%Z ->
   exists r, getRandomInt min max w = (Ret r, drawn w)).
Proof.
  intros Hmin Hmax. split; [|split; [|split]].
  - intros Hle Hspan. apply getRandomInt_ok; lia.
  - intros Hle Hspan. apply getRandomInt_panics.
    rewrite (wrap64_eq (max - min + 1) (-1)) by lia. lia.
  - intros Hlt Hspan. apply getRandomInt_panics.
    rewrite (wrap64_eq (max - min + 1) 0) by lia. lia.
  - intros Hspan. unfold getRandomInt. rewrite getRandomInt_span.
    rewrite (wrap64_eq (max - min + 1) 1) by lia.
    destruct (Intn_pos (max - min + 1 + 1 * 2 ^ 64) w ltac:(lia)) as [E _].
    rewrite (iobind_Ret _ _ _ _ _ E). eexists. reflexivity.
Qed.

Lemma String_get_In s :
  forall idx c, String.get idx s = Some c -> In c (list_ascii_of_string s).
Proof.
  induction s as [|c0 r IH]; intros idx c Ec; [destruct idx; discriminate|].
  destruct idx as [|idx]; simpl in *.
  - inversion Ec. left. reflexivity.
  - right. apply (IH idx c Ec).
Qed.

Lemma String_get_lt s :
  forall idx, (idx < String.length s)%nat -> exists c, String.get idx s = Some c.
Proof.
  induction s as [|c0 r IH]; intros idx Hidx; [simpl in Hidx; lia|].
  destruct idx as [|idx]; simpl in *; [eexists; reflexivity|].
  apply IH. lia.
Qed.

Lemma generateRandomString_loop_spec count :
  forall w,
    exists s w',
      generateRandomString_loop count w = (Ret s, w') /\
      sameButRand w w' /\
      String.length s = count /\
      Forall (fun c => In c (list_ascii_of_string characters))
        (list_ascii_of_string s).
Proof.
  induction count as [|count IH]; intros w.
  - exists "", w. repeat split; constructor.
  - cbn [generateRandomString_loop].
    destruct (Intn_pos (Z.of_nat (String.length characters)) w
                ltac:(vm_compute; reflexivity)) as [E Hr].
    rewrite (iobind_Ret _ _ _ _ _ E).
    destruct (String_get_lt characters
                (Z.to_nat (Z.of_nat (W_rand w 0)
                           mod Z.of_nat (String.length characters)))
                ltac:(lia)) as [c Ec].
    rewrite Ec.
    destruct (IH (drawn w)) as (s & w' & Es & Hsame & Hlen & Hall).
    rewrite (iobind_Ret _ _ _ _ _ Es).
    exists (String c s), w'. split; [reflexivity|]. split; [|split].
    + apply (sameButRand_trans _ _ _ (sameButRand_drawn w) Hsame).
    + simpl. rewrite Hlen. reflexivity.
    + simpl. constructor; [|assumption]. apply (String_get_In _ _ _ Ec).
Qed.

Lemma generateRandomString_ok w :
  exists s w',
    generateRandomString w = (Ret s, w') /\ generated s /\ sameButRand w w'.
Proof.
  unfold generateRandomString.
  destruct (getRandomInt_ok 5 10 w ltac:(lia) ltac:(lia) ltac:(lia) ltac:(lia))
    as (r & Er & Hr).
  rewrite (iobind_Ret _ _ _ _ _ Er).
  destruct (r <? 0)%Z eqn:Eneg; [apply Z.ltb_lt in Eneg; lia|].
  destruct (generateRandomString_loop_spec (Z.to_nat r) (drawn w))
    as (s & w' & Es & Hsame & Hlen & Hall).
  exists s, w'. split; [assumption|]. split.
  - split; [lia | assumption].
  - apply (sameButRand_trans _ _ _ (sameButRand_drawn w) Hsame).
Qed.

(** X9: [generateRandomString] never panics: whatever the random numbers,
    it returns a string of five to ten characters of its alphabet, and
    changes nothing in the world but the source of random numbers. *)
Theorem generateRandomString_spec (w : World) :
  exists s w',
    generateRandomString w = (Ret s, w') /\ generated s /\ sameButRand w w'.
Proof. apply generateRandomString_ok. Qed.

(** X10: a key made by [generateRandomString] never passes the integrity
    check of [setValue] when digests have sixteen bytes: the key has at
    most ten characters and the printed hash has thirty-two. *)
Theorem generated_key_rejected (md5_Sum : string -> string) (fuel : nat)
    (d : DHTPtr) (key value : string) (h : Heap) (w w' : World) :
  String.length (md5_Sum key) = 16%nat ->
  generateRandomString w = (Ret key, w') ->
  setValue md5_Sum (S fuel) d key value h = (Ret false, h).
Proof.
  intros Hlen E.
  destruct (generateRandomString_ok w) as (s & w1 & Es & [[_ Hs] _] & _).
  rewrite E in Es. inversion Es; subst s.
  apply setValue_rejects. intros Hk.
  apply (f_equal String.length) in Hk. unfold hashValue in Hk.
  rewrite Sprintf_x_length, Hlen in Hk. lia.
Qed.

Lemma generated_key_rejected_witness :
  setValue zeroSum 1 0 "KRYfmt07" "v" lonely = (Ret false, lonely).
Proof.
  apply (generated_key_rejected zeroSum 0 0%nat "KRYfmt07" "v" lonely
           (initial (fun i => (i * 7 + 3)%nat))
           (snd (generateRandomString (initial (fun i => (i * 7 + 3)%nat))))).
  - reflexivity.
  - vm_compute. reflexivity.
Defined.

Lemma selectRandomElements_loop_spec i :
  forall shuffled w,
    (i <= length shuffled)%nat ->
    exists l w',
      selectRandomElements_loop i shuffled w = (Ret l, w') /\
      l ≡ₚ shuffled /\ sameButRand w w'.
Proof.
  induction i as [|i IH]; intros shuffled w Hi.
  - exists shuffled, w. repeat split; reflexivity.
  - cbn [selectRandomElements_loop].
    destruct (Intn_pos (Z.of_nat (S i)) w ltac:(lia)) as [E Hr].
    rewrite (iobind_Ret _ _ _ _ _ E).
    set (randomIndex := Z.to_nat (Z.of_nat (W_rand w 0) mod Z.of_nat (S i))).
    assert (Hri : (randomIndex < length shuffled)%nat)
      by (unfold randomIndex; lia).
    destruct (lookup_lt_is_Some_2 shuffled randomIndex Hri) as [atRandom Er].
    destruct (lookup_lt_is_Some_2 shuffled i ltac:(lia)) as [atI Ei].
    rewrite Er, Ei.
    pose proof (Permutation_insert_swap shuffled i randomIndex atI atRandom
                  Ei Er) as Hp.
    destruct (IH (<[randomIndex:=atI]> (<[i:=atRandom]> shuffled)) (drawn w))
      as (l & w' & El & Hl & Hsame).
    { rewrite !length_insert. lia. }
    exists l, w'. split; [assumption|]. split.
    + rewrite Hl. exact Hp.
    + apply (sameButRand_trans _ _ _ (sameButRand_drawn w) Hsame).
Qed.

Lemma selectRandomElements_ok arr count w :
  (0 <= count)%Z ->
  exists l w' shuffled,
    selectRandomElements arr count w = (Ret l, w') /\
    shuffled ≡ₚ arr /\
    l = take (Z.to_nat count) shuffled /\
    length l = Nat.min (Z.to_nat count) (length arr) /\
    sameButRand w w'.
Proof.
  intros Hc. unfold selectRandomElements.
  destruct (selectRandomElements_loop_spec (length arr) arr w (le_n _))
    as (shuffled & w' & Es & Hp & Hsame).
  rewrite (iobind_Ret _ _ _ _ _ Es).
  pose proof (Permutation_length Hp) as Hlen.
  assert (Hn : (0 <= min count (Z.of_nat (length shuffled)))%Z)
    by (unfold min; destruct (_ <? _)%Z; lia).
  destruct (min count (Z.of_nat (length shuffled)) <? 0)%Z eqn:En;
    [apply Z.ltb_lt in En; lia|].
  exists (take (Z.to_nat (min count (Z.of_nat (length shuffled)))) shuffled),
    w', shuffled.
  split; [reflexivity|]. split; [assumption|].
  assert (Htake : take (Z.to_nat (min count (Z.of_nat (length shuffled))))
                    shuffled = take (Z.to_nat count) shuffled).
  { unfold min. destruct (count <? Z.of_nat (length shuffled))%Z eqn:Ec;
      [reflexivity|].
    apply Z.ltb_ge in Ec. rewrite Nat2Z.id.
    rewrite !take_ge by lia. reflexivity. }
  rewrite Htake. split; [reflexivity|]. split; [|assumption].
  rewrite length_take. lia.
Qed.

(** X11: [selectRandomElements(arr, count)] with [count >= 0] never panics:
    it returns the first [count] elements (all of them if there are fewer)
    of a rearrangement of [arr], so as many elements as the smaller of
    [count] and the length of [arr], each one an element of [arr]; it
    changes nothing in the world but the source of random numbers.  With a
    negative [count] it panics. *)
Theorem selectRandomElements_spec (arr : list string) (count : Z) (w : World) :
  ((0 <= count)%Z ->
   exists l w' shuffled,
     selectRandomElements arr count w = (Ret l, w') /\
     shuffled ≡ₚ arr /\
     l = take (Z.to_nat count) shuffled /\
     length l = Nat.min (Z.to_nat count) (length arr) /\
     (forall s, s ∈ l -> s ∈ arr) /\
     sameButRand w w')
  /\
  ((count < 0)%Z -> fst (selectRandomElements arr count w) = Panic).
Proof.
  split.
  - intros Hc.
    destruct (selectRandomElements_ok arr count w Hc)
      as (l & w' & shuffled & E & Hp & Hl & Hlen & Hsame).
    exists l, w', shuffled.
    do 4 (split; [assumption|]). split; [|assumption].
    intros s Hs. rewrite <- Hp. subst l. revert Hs. apply subseteq_take.
  - intros Hc. unfold selectRandomElements.
    destruct (selectRandomElements_loop_spec (length arr) arr w (le_n _))
      as (shuffled & w' & Es & _ & _).
    rewrite (iobind_Ret _ _ _ _ _ Es).
    assert (En : (min count (Z.of_nat (length shuffled)) <? 0)%Z = true).
    { apply Z.ltb_lt. unfold min. destruct (_ <? _)%Z eqn:E; [lia|].
      apply Z.ltb_ge in E. lia. }
    rewrite En. reflexivity.
Qed.

(** ** The driver: [main] *)

Lemma forLoop_inv_from {St} (Inv : nat -> St -> World -> Prop)
    (lo step : Z) (body : Z -> St -> IO St) count :
  forall t0 s w,
    (forall t s w,
        (t0 <= t < t0 + count)%nat -> Inv t s w ->
        exists s' w',
          body (lo + Z.of_nat t * step)%Z s w = (Ret s', w') /\
          Inv (S t) s' w') ->
    Inv t0 s w ->
    exists s' w',
      forLoop count (lo + Z.of_nat t0 * step)%Z step body s w = (Ret s', w') /\
      Inv (t0 + count)%nat s' w'.
Proof.
  induction count as [|count IH]; intros t0 s w Hbody H0.
  - exists s, w. rewrite Nat.add_0_r. split; [reflexivity | assumption].
  - cbn [forLoop].
    destruct (Hbody t0 s w ltac:(lia) H0) as (s1 & w1 & E1 & H1).
    rewrite (iobind_Ret _ _ _ _ _ E1).
    replace (lo + Z.of_nat t0 * step + step)%Z
      with (lo + Z.of_nat (S t0) * step)%Z by lia.
    destruct (IH (S t0) s1 w1) as (s' & w' & E' & H'); [|assumption|].
    + intros t s2 w2 Ht. apply Hbody. lia.
    + exists s', w'. split; [assumption|].
      replace (t0 + S count)%nat with (S t0 + count)%nat by lia. assumption.
Qed.

(** A counting loop whose rounds keep an invariant. *)
Lemma forLoop_inv {St} (Inv : nat -> St -> World -> Prop)
    (lo step : Z) (body : Z -> St -> IO St) count s w :
  (forall t s w,
      (t < count)%nat -> Inv t s w ->
      exists s' w',
        body (lo + Z.of_nat t * step)%Z s w = (Ret s', w') /\ Inv (S t) s' w') ->
  Inv 0%nat s w ->
  exists s' w',
    forLoop count lo step body s w = (Ret s', w') /\ Inv count s' w'.
Proof.
  intros Hbody H0.
  destruct (forLoop_inv_from Inv lo step body count 0%nat s w) as (s' & w' & E & H).
  - intros t s1 w1 Ht. apply Hbody. lia.
  - assumption.
  - exists s', w'. split; [|assumption].
    replace (lo + Z.of_nat 0 * step)%Z with lo in E by lia. assumption.
Qed.

Lemma validPtr_insert h a x p : validPtr h p -> validPtr (<[a:=x]> h) p.
Proof.
  intros (b & y & -> & Hb).
  destruct (decide (a = b)) as [->|Hne].
  - exists b, x. split; [reflexivity | apply lookup_insert_eq].
  - exists b, y. split; [reflexivity|]. rewrite lookup_insert_ne; assumption.
Qed.

Lemma tablesEmpty_insert h a x :
  tablesEmpty h -> Peer_dht x = NewDHT -> tablesEmpty (<[a:=x]> h).
Proof.
  intros Hh Hx b y Hb.
  destruct (decide (a = b)) as [->|Hne].
  - rewrite lookup_insert_eq in Hb. inversion Hb; subst. assumption.
  - rewrite lookup_insert_ne in Hb by assumption. apply (Hh b y Hb).
Qed.

Lemma grows_refl h : grows h h.
Proof. intros p Hp. assumption. Qed.

Lemma grows_trans h1 h2 h3 : grows h1 h2 -> grows h2 h3 -> grows h1 h3.
Proof. intros H12 H23 p Hp. auto. Qed.

Lemma built_trans w1 w2 w3 : built w1 w2 -> built w2 w3 -> built w1 w3.
Proof.
  intros (_ & G12 & O12 & R12) (T3 & G23 & O23 & R23).
  split; [assumption|]. split; [apply (grows_trans _ _ _ G12 G23)|].
  split; congruence.
Qed.

Lemma newPeer_built id w :
  tablesEmpty (W_heap w) ->
  exists w',
    newPeer (mkPeer id [] NewDHT) w = (Ret (ptr (W_next w)), w') /\
    built w w' /\ W_next w' = S (W_next w) /\
    validPtr (W_heap w') (ptr (W_next w)).
Proof.
  intros Hw. eexists. split; [reflexivity|]. split; [|split].
  - split; [apply tablesEmpty_insert; auto|]. split; [|split; reflexivity].
    intros p. apply validPtr_insert.
  - reflexivity.
  - eexists _, _. split; [reflexivity|]. simpl. apply lookup_insert_eq.
Qed.

Lemma appendBucket_built peer bucket w :
  tablesEmpty (W_heap w) -> validPtr (W_heap w) peer ->
  exists w',
    appendBucket peer bucket w = (Ret tt, w') /\ built w w' /\
    W_next w' = W_next w.
Proof.
  intros Hw (a & x & -> & Ha). unfold appendBucket.
  assert (E : call (loadPeer (ptr a)) w = (Ret x, w)).
  { unfold call. rewrite (loadPeer_Some _ _ _ Ha). destruct w; reflexivity. }
  rewrite (iobind_Ret _ _ _ _ _ E).
  eexists. split; [reflexivity|]. split; [|reflexivity].
  split; [|split; [|split; reflexivity]].
  - simpl. apply tablesEmpty_insert; [assumption|]. simpl. apply (Hw a x Ha).
  - intros p. simpl. apply validPtr_insert.
Qed.

Lemma built_refl w : tablesEmpty (W_heap w) -> built w w.
Proof. intros H. split; [assumption|]. split; [apply grows_refl|]. auto. Qed.

Lemma main_neighbours_spec i j w :
  (i * 160 + j + 16 <= 100 * 160)%Z ->
  tablesEmpty (W_heap w) ->
  exists bucket w',
    main_neighbours i j (mkBucket []) w = (Ret bucket, w') /\
    built w w' /\ W_next w' = (W_next w + 16)%nat /\
    length (Bucket_nodes bucket) = 16%nat /\
    Forall (validPtr (W_heap w')) (Bucket_nodes bucket).
Proof.
  intros Hrange Hw. unfold main_neighbours.
  change (rounds 0 BucketSize 1) with 16%nat.
  apply (forLoop_inv
           (fun t bucket w' =>
              built w w' /\ W_next w' = (W_next w + t)%nat /\
              length (Bucket_nodes bucket) = t /\
              Forall (validPtr (W_heap w')) (Bucket_nodes bucket))).
  - intros t bucket w1 Ht (Hb & Hn & Hl & Hv).
    destruct (100 * 160 <=? i * 160 + j + (0 + Z.of_nat t * 1))%Z eqn:Ec;
      [apply Z.leb_le in Ec; lia|].
    destruct (newPeer_built (Sprintf_d (i * 160 + j + (0 + Z.of_nat t * 1))) w1
                (proj1 Hb)) as (w2 & E2 & Hb2 & Hn2 & Hv2).
    rewrite (iobind_Ret _ _ _ _ _ E2).
    eexists _, w2. split; [reflexivity|]. split; [|split; [|split]].
    + apply (built_trans _ _ _ Hb Hb2).
    + lia.
    + simpl. rewrite length_app. simpl. lia.
    + simpl. apply Forall_app. split; [|repeat constructor; assumption].
      destruct Hb2 as (_ & G & _). eapply Forall_impl; [exact Hv | exact G].
  - repeat split; try (simpl; lia); try constructor.
    + assumption.
    + apply grows_refl.
Qed.

Lemma main_buckets_spec i peer w :
  (0 <= i < 100)%Z ->
  tablesEmpty (W_heap w) -> validPtr (W_heap w) peer ->
  exists w',
    main_buckets i peer w = (Ret tt, w') /\
    built w w' /\ W_next w' = (W_next w + 160)%nat.
Proof.
  intros Hi Hw Hp. unfold main_buckets.
  change (rounds 0 160 BucketSize) with 10%nat.
  destruct (forLoop_inv
              (fun t (_ : unit) w' =>
                 built w w' /\ W_next w' = (W_next w + 16 * t)%nat)
              0 BucketSize
              (fun j _ =>
                 bucket <<- main_neighbours i j (mkBucket []) ;;
                 appendBucket peer bucket) 10 tt w)
    as ([] & w' & E & Hb & Hn).
  - intros t [] w1 Ht (Hb & Hn).
    destruct (main_neighbours_spec i (0 + Z.of_nat t * BucketSize) w1)
      as (bucket & w2 & E2 & Hb2 & Hn2 & _ & _).
    { unfold BucketSize. lia. }
    { apply (proj1 Hb). }
    rewrite (iobind_Ret _ _ _ _ _ E2).
    destruct (appendBucket_built peer bucket w2 (proj1 Hb2))
      as (w3 & E3 & Hb3 & Hn3).
    { destruct Hb2 as (_ & G2 & _). apply G2.
      destruct Hb as (_ & G & _). apply G. assumption. }
    exists tt, w3. split; [assumption|]. split.
    + apply (built_trans _ _ _ Hb (built_trans _ _ _ Hb2 Hb3)).
    + lia.
  - split; [apply built_refl; assumption | lia].
  - exists w'. split; [assumption|]. split; [assumption | lia].
Qed.

Lemma main_nodes_spec w :
  tablesEmpty (W_heap w) ->
  exists nodes w',
    main_nodes w = (Ret nodes, w') /\
    built w w' /\ W_next w' = (W_next w + 161 * 100)%nat /\
    length nodes = 100%nat /\
    Forall (validPtr (W_heap w')) nodes.
Proof.
  intros Hw. unfold main_nodes.
  change (rounds 0 100 1) with 100%nat.
  destruct (forLoop_inv
              (fun t nodes w' =>
                 built w w' /\ W_next w' = (W_next w + 161 * t)%nat /\
                 length nodes = t /\ Forall (validPtr (W_heap w')) nodes)
              0 1
              (fun i nodes =>
                 peer <<- newPeer (mkPeer (Sprintf_d i) [] NewDHT) ;;
                 _ <<- main_buckets i peer ;;
                 ioret (nodes ++ [peer])%list) 100 [] w)
    as (nodes & w' & E & Hb & Hn & Hl & Hv).
  - intros t nodes w1 Ht (Hb & Hn & Hl & Hv).
    destruct (newPeer_built (Sprintf_d (0 + Z.of_nat t * 1)) w1 (proj1 Hb))
      as (w2 & E2 & Hb2 & Hn2 & Hv2).
    rewrite (iobind_Ret _ _ _ _ _ E2).
    destruct (main_buckets_spec (0 + Z.of_nat t * 1) (ptr (W_next w1)) w2
                ltac:(lia) (proj1 Hb2) Hv2) as (w3 & E3 & Hb3 & Hn3).
    rewrite (iobind_Ret _ _ _ _ _ E3).
    eexists _, w3. split; [reflexivity|]. split; [|split; [|split]].
    + apply (built_trans _ _ _ Hb (built_trans _ _ _ Hb2 Hb3)).
    + lia.
    + rewrite length_app. simpl. lia.
    + destruct Hb2 as (_ & G2 & _). destruct Hb3 as (_ & G3 & _).
      apply Forall_app. split.
      * eapply Forall_impl; [exact Hv|]. intros p Hp. apply G3, G2, Hp.
      * repeat constructor. apply G3, Hv2.
  - split; [apply built_refl; assumption|]. split; [lia|].
    split; [reflexivity | constructor].
  - exists nodes, w'. split; [assumption|].
    split; [assumption|]. split; [lia|]. split; assumption.
Qed.

Lemma call_run {A} (m : M A) w r :
  m (W_heap w) = (r, W_heap w) -> call m w = (r, w).
Proof. intros E. unfold call. rewrite E. destruct w; reflexivity. Qed.

Lemma firstEntry_NewDHT x : Peer_dht x = NewDHT -> firstEntry (Peer_dht x) = nilPtr.
Proof. intros ->. reflexivity. Qed.

Lemma setValue_empty_table md5_Sum fuel a key value h x :
  h !! a = Some x -> Peer_dht x = NewDHT ->
  exists b, setValue md5_Sum (S fuel) a key value h = (Ret b, h).
Proof.
  intros Ha Hx.
  destruct (String.eqb_spec key (hashValue md5_Sum key)) as [Hk|Hk].
  - exists true.
    apply (setValue_no_own md5_Sum fuel a key value h x Hk Ha
             (firstEntry_NewDHT x Hx)).
  - exists false. apply setValue_rejects. assumption.
Qed.

Lemma nodeTable_valid nodes index w :
  Forall (validPtr (W_heap w)) nodes ->
  (0 <= index < Z.of_nat (length nodes))%Z ->
  exists a x, nodeTable nodes index w = (Ret a, w) /\ W_heap w !! a = Some x.
Proof.
  intros Hv Hi. unfold nodeTable.
  destruct (lookup_lt_is_Some_2 nodes (Z.to_nat index) ltac:(lia)) as [p Ep].
  rewrite Ep. rewrite Forall_forall in Hv.
  destruct (Hv p (list_elem_of_lookup_2 _ _ _ Ep)) as (a & x & -> & Ha).
  exists a, x. split; [reflexivity | assumption].
Qed.

Lemma main_store_spec md5_Sum fuel nodes w :
  tablesEmpty (W_heap w) -> Forall (validPtr (W_heap w)) nodes ->
  nodes <> [] ->
  exists keys w',
    main_store md5_Sum (S fuel) nodes w = (Ret keys, w') /\
    sameButRand w w' /\ length keys = 200%nat /\ Forall generated keys.
Proof.
  intros Hw Hv Hne. unfold main_store.
  change (rounds 0 200 1) with 200%nat.
  apply (forLoop_inv
           (fun t keys w' =>
              sameButRand w w' /\ length keys = t /\ Forall generated keys)).
  - intros t keys w1 Ht (Hs & Hl & Hg).
    destruct (generateRandomString_ok w1) as (key & w2 & E2 & Hkey & Hs2).
    rewrite (iobind_Ret _ _ _ _ _ E2).
    destruct (generateRandomString_ok w2) as (value & w3 & E3 & _ & Hs3).
    rewrite (iobind_Ret _ _ _ _ _ E3).
    assert (Hlen : (0 < Z.of_nat (length nodes))%Z)
      by (destruct nodes; [contradiction | simpl; lia]).
    destruct (Intn_pos (Z.of_nat (length nodes)) w3 Hlen) as [E4 Hr].
    rewrite (iobind_Ret _ _ _ _ _ E4).
    pose proof (sameButRand_trans _ _ _ Hs
                  (sameButRand_trans _ _ _ Hs2
                     (sameButRand_trans _ _ _ Hs3 (sameButRand_drawn w3))))
      as Hs4.
    assert (Hh : W_heap (drawn w3) = W_heap w) by apply Hs4.
    destruct (nodeTable_valid nodes _ (drawn w3)
                ltac:(rewrite Hh; assumption) Hr) as (a & x & E5 & Ha).
    rewrite (iobind_Ret _ _ _ _ _ E5).
    destruct (setValue_empty_table md5_Sum fuel a key value _ x Ha)
      as [b E6].
    { apply (Hw a x). rewrite <- Hh. assumption. }
    rewrite (iobind_Ret _ _ _ _ _ (call_run _ _ _ E6)).
    eexists _, _. split; [reflexivity|]. split; [assumption|]. split.
    + rewrite length_app. simpl. lia.
    + apply Forall_app. split; [assumption|].
      constructor; [assumption | constructor].
  - split; [apply sameButRand_refl|]. split; [reflexivity | constructor].
Qed.

Lemma main_retrieve_spec fuel nodes selectedKeys :
  forall w,
    tablesEmpty (W_heap w) -> Forall (validPtr (W_heap w)) nodes ->
    nodes <> [] ->
    exists w',
      main_retrieve (S fuel) nodes selectedKeys w = (Ret tt, w') /\
      W_heap w' = W_heap w /\ W_next w' = W_next w /\
      W_out w' = (W_out w ++ map (fun key => line key "") selectedKeys)%list.
Proof.
  induction selectedKeys as [|key rest IH]; intros w Hw Hv Hne.
  - exists w. repeat split. simpl. rewrite app_nil_r. reflexivity.
  - cbn [main_retrieve].
    assert (Hlen : (0 < Z.of_nat (length nodes))%Z)
      by (destruct nodes; [contradiction | simpl; lia]).
    destruct (Intn_pos (Z.of_nat (length nodes)) w Hlen) as [E1 Hr].
    rewrite (iobind_Ret _ _ _ _ _ E1).
    destruct (nodeTable_valid nodes _ (drawn w) Hv Hr) as (a & x & E2 & Ha).
    rewrite (iobind_Ret _ _ _ _ _ E2).
    pose proof (getValue_no_own fuel a key _ x Ha
                  (firstEntry_NewDHT x (Hw a x Ha))) as E3.
    rewrite (iobind_Ret _ _ _ _ _ (call_run _ _ _ E3)).
    unfold Printf at 1. unfold iobind at 1.
    destruct (IH (mkWorld (W_heap (drawn w)) (W_next (drawn w))
                    (W_rand (drawn w))
                    (W_out (drawn w) ++ [line key ""])) Hw Hv Hne)
      as (w' & E' & Hh' & Hn' & Ho').
    exists w'. split; [exact E'|]. split; [exact Hh'|]. split; [exact Hn'|].
    rewrite Ho'. simpl. rewrite <- app_assoc. reflexivity.
Qed.

(** X12: [main] runs to its end whatever the random numbers and the
    digest function, and whatever the bound on the recursion as long as
    it allows one call.  It allocates 16100 peers, all with the table of
    [NewDHT], and prints exactly a hundred lines; each line shows a key of
    five to ten characters of the alphabet and the empty string as its
    value. *)
Theorem main_prints_empty_values (md5_Sum : string -> string) (fuel : nat)
    (rand : nat -> nat) :
  exists selectedKeys w',
    main md5_Sum (S fuel) (initial rand) = (Ret tt, w') /\
    W_out w' = map (fun key => line key "") selectedKeys /\
    length selectedKeys = 100%nat /\
    Forall generated selectedKeys /\
    tablesEmpty (W_heap w') /\
    W_next w' = (161 * 100)%nat.
Proof.
  unfold main.
  destruct (main_nodes_spec (initial rand)) as (nodes & w1 & E1 & Hb1 & Hn1 & Hl1 & Hv1).
  { intros a x Ha. simpl in Ha. rewrite lookup_empty in Ha. discriminate. }
  rewrite (iobind_Ret _ _ _ _ _ E1).
  destruct Hb1 as (Ht1 & _ & Ho1 & _).
  assert (Hne : nodes <> []) by (intros ->; discriminate).
  destruct (main_store_spec md5_Sum fuel nodes w1 Ht1 Hv1 Hne)
    as (keys & w2 & E2 & (Hh2 & Hn2 & Ho2) & Hl2 & Hg2).
  rewrite (iobind_Ret _ _ _ _ _ E2).
  destruct (selectRandomElements_ok keys 100 w2 ltac:(lia))
    as (selected & w3 & shuffled & E3 & Hp3 & Hs3 & Hl3 & (Hh3 & Hn3 & Ho3)).
  rewrite (iobind_Ret _ _ _ _ _ E3).
  destruct (main_retrieve_spec fuel nodes selected w3)
    as (w4 & E4 & Hh4 & Hn4 & Ho4); try assumption.
  { rewrite Hh3, Hh2. assumption. }
  { rewrite Hh3, Hh2. assumption. }
  exists selected, w4. split; [assumption|]. split; [|split; [|split; [|split]]].
  - rewrite Ho4, Ho3, Ho2, Ho1. reflexivity.
  - rewrite Hl3, Hl2. reflexivity.
  - assert (Hsub : forall s, s ∈ selected -> s ∈ keys).
    { intros s Hs. rewrite <- Hp3. subst selected. revert Hs.
      apply subseteq_take. }
    rewrite Forall_forall in *. intros s Hs. apply Hg2, Hsub, Hs.
  - rewrite Hh4, Hh3, Hh2. assumption.
  - rewrite Hn4, Hn3, Hn2, Hn1. reflexivity.
Qed.

(** ** Store and retrieve: what they do not depend on, and where they
    do not return *)

Lemma bind_ext {A B} (m : M A) (f g : A -> M B) h :
  (forall a h', f a h' = g a h') -> bind m f h = bind m g h.
Proof.
  intros Hfg. unfold bind. destruct (m h) as [[a| |] h1]; auto.
Qed.

Lemma bind_cong {A B} (m m' : M A) (f g : A -> M B) h :
  m h = m' h -> (forall a h', f a h' = g a h') -> bind m f h = bind m' g h.
Proof.
  intros Hm Hfg. unfold bind. rewrite Hm.
  destruct (m' h) as [[a| |] h1]; auto.
Qed.

Lemma setValue_loop_ext set set' nodes :
  (forall a h, set a h = set' a h) ->
  forall h, setValue_loop set nodes h = setValue_loop set' nodes h.
Proof.
  intros Hs. induction nodes as [|p rest IH]; intros h; simpl; [reflexivity|].
  destruct p as [|a]; [reflexivity|].
  unfold bind. rewrite Hs. destruct (set' a h) as [[b| |] h1]; auto.
Qed.

(** X6: the value given to [setValue] is never used: with any two values
    the call has the same outcome and leaves the same store. *)
Theorem setValue_ignores_value (md5_Sum : string -> string) (fuel : nat)
    (d : DHTPtr) (key value1 value2 : string) (h : Heap) :
  setValue md5_Sum fuel d key value1 h = setValue md5_Sum fuel d key value2 h.
Proof.
  revert d h. induction fuel as [|fuel IH]; intros d h; [reflexivity|].
  rewrite !setValue_S.
  destruct (negb (String.eqb key (hashValue md5_Sum key))); [reflexivity|].
  apply bind_ext. intros own h1.
  assert (Hf : forall h2,
    bind (findNearestNodes d key) (fun nearestNodes =>
      bind (setValue_loop (fun a => setValue md5_Sum fuel a key value1)
              nearestNodes) (fun _ => ret true)) h2
    = bind (findNearestNodes d key) (fun nearestNodes =>
      bind (setValue_loop (fun a => setValue md5_Sum fuel a key value2)
              nearestNodes) (fun _ => ret true)) h2).
  { intros h2. apply bind_ext. intros l h3. unfold bind.
    rewrite (setValue_loop_ext _
               (fun a => setValue md5_Sum fuel a key value2) l
               (fun a h4 => IH a h4)).
    reflexivity. }
  destruct own as [|o]; cbv zeta; [apply Hf|].
  apply bind_ext. intros held h2. destruct held; [reflexivity|].
  apply bind_cong; [apply IH | intros _ h3; apply Hf].
Qed.

(** X7: on a table whose first entry is the peer that holds the table,
    [setValue] with a valid key that the table does not hold never
    returns: it calls itself on the same table, whatever the bound on the
    recursion. *)
Theorem setValue_self_rooted_never_returns (md5_Sum : string -> string)
    (d : DHTPtr) (key value : string) (h : Heap) :
  key = hashValue md5_Sum key ->
  findOwnNode d h = (Ret (ptr d), h) ->
  containsKey d key h = (Ret false, h) ->
  forall fuel, setValue md5_Sum fuel d key value h = (OutOfFuel, h).
Proof. apply setValue_self_OutOfFuel. Qed.

Lemma setValue_self_rooted_never_returns_witness :
  setValue zeroSum 9 0 zeroKey "v" selfRooted = (OutOfFuel, selfRooted).
Proof.
  apply (setValue_self_rooted_never_returns zeroSum 0%nat zeroKey "v"
           selfRooted); reflexivity.
Defined.

(** X13: on a table whose first entry is the peer that holds the table and
    that holds the key, [getValue] never returns: it calls itself on the
    same table, whatever the bound on the recursion. *)
Theorem getValue_self_rooted_never_returns (d : DHTPtr) (key : string)
    (h : Heap) :
  findOwnNode d h = (Ret (ptr d), h) ->
  containsKey d key h = (Ret true, h) ->
  forall fuel, getValue fuel d key h = (OutOfFuel, h).
Proof. apply getValue_self_held_OutOfFuel. Qed.

Lemma getValue_self_rooted_never_returns_witness :
  getValue 9 0 "7" selfRooted = (OutOfFuel, selfRooted).
Proof.
  apply (getValue_self_rooted_never_returns 0%nat "7" selfRooted);
    reflexivity.
Defined.

(** ** The peers' own buckets are never read *)

Lemma agree_refl_const {A} (m : M A) :
  (forall h h', fst (m h) = fst (m h')) -> agree m m.
Proof. intros H h h' _. apply H. Qed.

Lemma agree_ret {A} (a : A) : agree (ret a) (ret a).
Proof. intros h h' _. reflexivity. Qed.

Lemma agree_panic {A} : agree (@panic A) (@panic A).
Proof. intros h h' _. reflexivity. Qed.

Lemma agree_diverge {A} : agree (@diverge A) (@diverge A).
Proof. intros h h' _. reflexivity. Qed.

Lemma agree_bind {A B} (m m' : M A) (f f' : A -> M B) :
  readonly m -> readonly m' -> agree m m' ->
  (forall a, agree (f a) (f' a)) ->
  agree (bind m f) (bind m' f').
Proof.
  intros Rm Rm' Hm Hf h h' Hh. unfold bind.
  specialize (Hm h h' Hh). specialize (Rm h). specialize (Rm' h').
  destruct (m h) as [r h1], (m' h') as [r' h1']. simpl in *. subst.
  destruct r' as [a| |]; try reflexivity. apply Hf. assumption.
Qed.

Lemma agree_load {B} p (f f' : Peer -> M B) :
  (forall x x', Peer_id x = Peer_id x' -> Peer_dht x = Peer_dht x' ->
                agree (f x) (f' x')) ->
  agree (bind (loadPeer p) f) (bind (loadPeer p) f').
Proof.
  intros Hf h h' Hh. unfold bind, loadPeer.
  destruct p as [|a]; [reflexivity|].
  specialize (Hh a) as Ha.
  destruct (h !! a) as [x|], (h' !! a) as [x'|]; try contradiction;
    [|reflexivity].
  destruct Ha as [Hid Hdht]. apply (Hf x x' Hid Hdht). assumption.
Qed.

Lemma agree_loadDHT d : agree (loadDHT d) (loadDHT d).
Proof.
  unfold loadDHT. apply agree_load. intros x x' _ ->. apply agree_ret.
Qed.

Lemma agree_findOwnNode d : agree (findOwnNode d) (findOwnNode d).
Proof.
  unfold findOwnNode.
  apply agree_bind; auto using readonly_loadDHT, agree_loadDHT.
  intros t. destruct (DHT_buckets t) as [|b bs]; [apply agree_ret|].
  destruct (Bucket_nodes b); apply agree_ret.
Qed.

Lemma agree_containsKey_nodes nodes key :
  agree (containsKey_nodes nodes key) (containsKey_nodes nodes key).
Proof.
  induction nodes as [|p rest IH]; simpl; [apply agree_ret|].
  apply agree_load. intros x x' -> _.
  destruct (String.eqb (Peer_id x') key); [apply agree_ret | exact IH].
Qed.

Lemma agree_containsKey_buckets bs key :
  agree (containsKey_buckets bs key) (containsKey_buckets bs key).
Proof.
  induction bs as [|b rest IH]; simpl; [apply agree_ret|].
  apply agree_bind;
    auto using readonly_containsKey_nodes, agree_containsKey_nodes.
  intros found. destruct found; [apply agree_ret | exact IH].
Qed.

Lemma agree_containsKey d key : agree (containsKey d key) (containsKey d key).
Proof.
  unfold containsKey.
  apply agree_bind; auto using readonly_loadDHT, agree_loadDHT.
  intros t. apply agree_containsKey_buckets.
Qed.

Lemma agree_closer key p q : agree (closer key p q) (closer key p q).
Proof.
  unfold closer. apply agree_load. intros x1 x1' -> _.
  apply agree_load. intros x2 x2' -> _.
  destruct (negb _); apply agree_ret.
Qed.

Lemma agree_sink key x sorted_rev :
  agree (sink (closer key) x sorted_rev) (sink (closer key) x sorted_rev).
Proof.
  induction sorted_rev as [|y r IH]; simpl; [apply agree_ret|].
  apply agree_bind; auto using readonly_closer, agree_closer.
  intros lt. destruct lt; [|apply agree_ret].
  apply agree_bind; auto using readonly_sink, readonly_closer.
  intros r'. apply agree_ret.
Qed.

Lemma agree_insertionSort key todo :
  forall sorted_rev,
    agree (insertionSort (closer key) sorted_rev todo)
          (insertionSort (closer key) sorted_rev todo).
Proof.
  induction todo as [|x rest IH]; intros sorted_rev; simpl;
    [apply agree_ret|].
  apply agree_bind; auto using readonly_sink, readonly_closer, agree_sink.
Qed.

Lemma agree_keepNear key dist nodes :
  agree (keepNear key dist nodes) (keepNear key dist nodes).
Proof.
  induction nodes as [|p rest IH]; simpl; [apply agree_ret|].
  apply agree_load. intros x x' -> _.
  apply agree_bind; auto using readonly_keepNear.
  intros near. destruct (_ <=? _)%Z; apply agree_ret.
Qed.

Lemma agree_findNearestNodes d key :
  agree (findNearestNodes d key) (findNearestNodes d key).
Proof.
  unfold findNearestNodes.
  apply agree_bind; auto using readonly_findOwnNode, agree_findOwnNode.
  intros own. destruct own as [|o]; [apply agree_ret|].
  apply agree_load. intros xo xo' -> _.
  apply agree_bind; auto using readonly_loadDHT, agree_loadDHT.
  intros t.
  apply agree_bind.
  - apply readonly_sortPeerSlice. apply readonly_closer.
  - apply readonly_sortPeerSlice. apply readonly_closer.
  - apply agree_insertionSort.
  - intros sorted.
    apply agree_bind; auto using readonly_keepNear, agree_keepNear.
    intros near. apply agree_ret.
Qed.

Lemma agree_getValue_loop get nodes :
  (forall a, readonly (get a)) -> (forall a, agree (get a) (get a)) ->
  agree (getValue_loop get nodes) (getValue_loop get nodes).
Proof.
  intros Rg Hg. induction nodes as [|p rest IH]; simpl; [apply agree_ret|].
  destruct p as [|a]; [apply agree_panic|].
  apply agree_bind; auto.
  intros v. destruct (negb _); [apply agree_ret | exact IH].
Qed.

Lemma agree_getValue fuel :
  forall d key, agree (getValue fuel d key) (getValue fuel d key).
Proof.
  induction fuel as [|fuel IH]; intros d key; [apply agree_diverge|].
  rewrite getValue_S.
  apply agree_bind; auto using readonly_findOwnNode, agree_findOwnNode.
  intros own.
  assert (Hf : agree
            (bind (findNearestNodes d key) (fun nearestNodes =>
               getValue_loop (fun a => getValue fuel a key) nearestNodes))
            (bind (findNearestNodes d key) (fun nearestNodes =>
               getValue_loop (fun a => getValue fuel a key) nearestNodes))).
  { apply agree_bind;
      auto using readonly_findNearestNodes, agree_findNearestNodes.
    intros l. apply agree_getValue_loop.
    - intros a. apply readonly_getValue.
    - intros a. apply IH. }
  destruct own as [|o]; cbv zeta; [exact Hf|].
  apply agree_bind; auto using readonly_containsKey, agree_containsKey.
  intros held. destruct held; [apply IH | exact Hf].
Qed.

Lemma agree_setValue_loop set nodes :
  (forall a, readonly (set a)) -> (forall a, agree (set a) (set a)) ->
  agree (setValue_loop set nodes) (setValue_loop set nodes).
Proof.
  intros Rs Hs. induction nodes as [|p rest IH]; simpl; [apply agree_ret|].
  destruct p as [|a]; [apply agree_panic|].
  apply agree_bind; auto using readonly_setValue_loop.
Qed.

Lemma agree_setValue md5_Sum fuel :
  forall d key value,
    agree (setValue md5_Sum fuel d key value)
          (setValue md5_Sum fuel d key value).
Proof.
  induction fuel as [|fuel IH]; intros d key value; [apply agree_diverge|].
  rewrite setValue_S.
  destruct (negb _); [apply agree_ret|].
  apply agree_bind; auto using readonly_findOwnNode, agree_findOwnNode.
  intros own.
  assert (Rl : readonly
            (bind (findNearestNodes d key) (fun nearestNodes =>
               bind (setValue_loop
                       (fun a => setValue md5_Sum fuel a key value)
                       nearestNodes) (fun _ => ret true)))).
  { apply readonly_bind; [apply readonly_findNearestNodes | intros l].
    apply readonly_bind; [|intros; apply readonly_ret].
    apply readonly_setValue_loop. intros a. apply readonly_setValue. }
  assert (Hf : agree
            (bind (findNearestNodes d key) (fun nearestNodes =>
               bind (setValue_loop
                       (fun a => setValue md5_Sum fuel a key value)
                       nearestNodes) (fun _ => ret true)))
            (bind (findNearestNodes d key) (fun nearestNodes =>
               bind (setValue_loop
                       (fun a => setValue md5_Sum fuel a key value)
                       nearestNodes) (fun _ => ret true)))).
  { apply agree_bind;
      auto using readonly_findNearestNodes, agree_findNearestNodes.
    intros l. apply agree_bind.
    - apply readonly_setValue_loop. intros a. apply readonly_setValue.
    - apply readonly_setValue_loop. intros a. apply readonly_setValue.
    - apply agree_setValue_loop.
      + intros a. apply readonly_setValue.
      + intros a. apply IH.
    - intros _. apply agree_ret. }
  destruct own as [|o]; cbv zeta; [exact Hf|].
  apply agree_bind; auto using readonly_containsKey, agree_containsKey.
  intros held. destruct held; [apply agree_ret|].
  apply agree_bind; auto using readonly_setValue.
Qed.

(** X14: no method reads the buckets that a peer carries itself, the only
    thing that [main] fills: on two stores whose peers have the same
    identifiers and the same tables, [getValue], [setValue], [containsKey]
    and [findNearestNodes] have the same outcome. *)
Theorem own_buckets_never_read (md5_Sum : string -> string) (fuel : nat)
    (d : DHTPtr) (key value : string) (h h' : Heap) :
  sameTables h h' ->
  fst (getValue fuel d key h) = fst (getValue fuel d key h') /\
  fst (setValue md5_Sum fuel d key value h)
  = fst (setValue md5_Sum fuel d key value h') /\
  fst (containsKey d key h) = fst (containsKey d key h') /\
  fst (findNearestNodes d key h) = fst (findNearestNodes d key h').
Proof.
  intros Hh. split; [|split; [|split]].
  - apply agree_getValue; assumption.
  - apply agree_setValue; assumption.
  - apply agree_containsKey; assumption.
  - apply agree_findNearestNodes; assumption.
Qed.

Lemma sameTables_lonely : sameTables lonely_with_bucket lonely.
Proof.
  intros a. unfold lonely_with_bucket, lonely.
  destruct (decide (a = 0%nat)) as [->|Hne].
  - rewrite !lookup_insert_eq. split; reflexivity.
  - rewrite !lookup_insert_ne, !lookup_empty by auto. exact I.
Qed.

Lemma own_buckets_never_read_witness :
  fst (getValue 3 0 "k" lonely_with_bucket) = fst (getValue 3 0 "k" lonely).
Proof.
  apply (own_buckets_never_read zeroSum 3 0%nat "k" "v" lonely_with_bucket
           lonely sameTables_lonely).
Defined.

(** ** Edge cases of the tables *)

(** X15: on a peer with the table of [NewDHT], as every peer of [main]
    has, nothing is found and nothing is forwarded: [containsKey] answers
    [false], [findNearestNodes] returns the empty list, [getValue] returns
    the empty string, and [setValue] returns at once whether the key
    equals its hash. *)
Theorem empty_table_behaviour (md5_Sum : string -> string) (fuel : nat)
    (d : DHTPtr) (x : Peer) (key value : string) (h : Heap) :
  h !! d = Some x ->
  Peer_dht x = NewDHT ->
  containsKey d key h = (Ret false, h) /\
  findNearestNodes d key h = (Ret [], h) /\
  getValue (S fuel) d key h = (Ret "", h) /\
  setValue md5_Sum (S fuel) d key value h
  = (Ret (String.eqb key (hashValue md5_Sum key)), h).
Proof.
  intros Hd Hx. pose proof (firstEntry_NewDHT x Hx) as Hown.
  split; [|split; [|split]].
  - unfold containsKey.
    rewrite (bind_Ret _ _ h h _ (loadDHT_Some h d x Hd)), Hx. reflexivity.
  - apply (findNearestNodes_no_own h d x key Hd Hown).
  - apply (getValue_no_own fuel d key h x Hd Hown).
  - destruct (String.eqb_spec key (hashValue md5_Sum key)) as [Hk|Hk].
    + apply (setValue_no_own md5_Sum fuel d key value h x Hk Hd Hown).
    + apply setValue_rejects. assumption.
Qed.

Lemma empty_table_behaviour_witness :
  getValue 1 0 "k" lonely = (Ret "", lonely).
Proof.
  apply (empty_table_behaviour zeroSum 0 0%nat (mkPeer "1" [] NewDHT) "k" "v"
           lonely); reflexivity.
Defined.

Lemma setValue_loop_all_true set nodes h :
  (forall p, p ∈ nodes -> exists a, p = ptr a /\ set a h = (Ret true, h)) ->
  setValue_loop set nodes h = (Ret tt, h).
Proof.
  induction nodes as [|p rest IH]; intros Hn; simpl; [reflexivity|].
  destruct (Hn p (list_elem_of_here _ _)) as (a & -> & Ea).
  rewrite (bind_Ret _ _ h h _ Ea).
  apply IH. intros q Hq. apply Hn. apply list_elem_of_further; assumption.
Qed.

Lemma setValue_ranked md5_Sum h key value (rank : DHTPtr -> nat) :
  key = hashValue md5_Sum key ->
  closed h ->
  (forall d d', forwardsSet h key d d' -> (rank d' < rank d)%nat) ->
  forall fuel d x,
    h !! d = Some x -> (rank d < fuel)%nat ->
    setValue md5_Sum fuel d key value h = (Ret true, h).
Proof.
  intros Hk Hc Hrank. induction fuel as [|fuel IH]; intros d x Hd Hlt; [lia|].
  destruct (firstEntry (Peer_dht x)) as [|o] eqn:Hown.
  - apply (setValue_no_own md5_Sum fuel d key value h x Hk Hd Hown).
  - pose proof (findOwnNode_Some h d x Hd) as Eown. rewrite Hown in Eown.
    pose proof (Hc d x Hd) as Hvalid. rewrite Forall_forall in Hvalid.
    destruct (Hvalid _ (firstEntry_in _ _ Hown)) as (o' & xo & Eo & Ho).
    inversion Eo; subst o'.
    destruct (containsKey_total h key o xo Hc Ho) as [held Eheld].
    destruct held.
    + apply (setValue_held md5_Sum fuel d key value h o Hk Eown Eheld).
    + destruct (findNearestNodes_total h d key x Hd (Hc d x Hd)) as [l El].
      rewrite setValue_S. rewrite <- Hk, String.eqb_refl. cbn [negb].
      rewrite (bind_Ret _ _ h h _ Eown). cbv zeta.
      rewrite (bind_Ret _ _ h h _ Eheld).
      assert (Eo' : setValue md5_Sum fuel o key value h = (Ret true, h)).
      { apply (IH o xo Ho).
        assert (rank o < rank d)%nat; [|lia].
        apply Hrank. exists o. split; [assumption|].
        split; [assumption|]. left. reflexivity. }
      rewrite (bind_Ret _ _ h h _ Eo').
      rewrite (bind_Ret _ _ h h _ El).
      rewrite (bind_Ret _ _ h h tt); [reflexivity|].
      apply setValue_loop_all_true. intros p Hp.
      destruct (findNearestNodes_Ret_inv h d key l h El) as (_ & _ & Hl).
      destruct (Hl p Hp) as (a & xa & _ & _ & _ & -> & Ha & _).
      exists a. split; [reflexivity|].
      apply (IH a xa Ha).
      assert (rank a < rank d)%nat; [|lia].
      apply Hrank. exists o. split; [assumption|].
      split; [assumption|]. right. exists l. auto.
Qed.

(** X16: [setValue] with a valid key returns [true] and leaves the store
    as it was, with any fuel above the rank of the table, when every
    pointer kept in a table points to a peer and its calls go down a rank:
    from a table whose own node's table does not hold the key to that
    table and to the tables of the selected nearest nodes. *)
Theorem setValue_true_when_ranked (md5_Sum : string -> string) (h : Heap)
    (key value : string) (rank : DHTPtr -> nat) (d : DHTPtr) (x : Peer) :
  key = hashValue md5_Sum key ->
  closed h ->
  h !! d = Some x ->
  (forall d1 d2, forwardsSet h key d1 d2 -> (rank d2 < rank d1)%nat) ->
  forall fuel, (rank d < fuel)%nat ->
    setValue md5_Sum fuel d key value h = (Ret true, h).
Proof.
  intros Hk Hc Hd Hrank fuel Hlt.
  apply (setValue_ranked md5_Sum h key value rank Hk Hc Hrank fuel d x Hd Hlt).
Qed.

Lemma lookup_chain_None d : chain !! S (S d) = None.
Proof.
  unfold chain. rewrite !lookup_insert_ne by lia. apply lookup_empty.
Qed.

Lemma closed_chain : closed chain.
Proof.
  intros a x Ha.
  destruct a as [|[|a]];
    [| | rewrite lookup_chain_None in Ha; discriminate];
    vm_compute in Ha; inversion Ha; subst x;
    repeat constructor; eexists _, _; (split; [reflexivity|]);
    vm_compute; reflexivity.
Qed.

Lemma forwardsSet_chain d d' :
  forwardsSet chain zeroKey d d' -> (depth_chain d' < depth_chain d)%nat.
Proof.
  intros (o & Hown & _ & Hcases).
  destruct d as [|[|d]].
  - vm_compute in Hown. inversion Hown; subst o.
    destruct Hcases as [-> | (l & Hl & Hin)]; [vm_compute; lia|].
    vm_compute in Hl. inversion Hl; subst l.
    apply elem_of_cons in Hin as [E | Hin];
      [inversion E; subst; vm_compute; lia | inversion Hin].
  - vm_compute in Hown. discriminate.
  - apply findOwnNode_Ret_inv in Hown as (_ & x & Hx & _).
    rewrite lookup_chain_None in Hx. discriminate.
Qed.

Lemma setValue_true_when_ranked_witness :
  setValue zeroSum 2 0 zeroKey "v" chain = (Ret true, chain).
Proof.
  apply (setValue_true_when_ranked zeroSum chain zeroKey "v" depth_chain
           0%nat (mkNode "4" [[ptr 1]]) eq_refl closed_chain eq_refl
           forwardsSet_chain).
  vm_compute. lia.
Defined.

Lemma settles_ret {A} (a : A) : settles (ret a).
Proof. intros h r h' E. inversion E. discriminate. Qed.

Lemma settles_bind {A B} (m : M A) (f : A -> M B) :
  settles m -> (forall a, settles (f a)) -> settles (bind m f).
Proof.
  intros Hm Hf h r h' E. unfold bind in E.
  destruct (m h) as [[a| |] h1] eqn:Em.
  - apply (Hf a h1 r h' E).
  - inversion E. discriminate.
  - exfalso. apply (Hm h _ _ Em). reflexivity.
Qed.

Lemma settles_loadPeer p : settles (loadPeer p).
Proof.
  intros h r h' E. unfold loadPeer in E. destruct p as [|a].
  - inversion E. discriminate.
  - destruct (h !! a); inversion E; discriminate.
Qed.

Lemma settles_closer key p q : settles (closer key p q).
Proof.
  unfold closer. apply settles_bind; [apply settles_loadPeer | intros x1].
  apply settles_bind; [apply settles_loadPeer | intros x2].
  destruct (negb _); apply settles_ret.
Qed.

Lemma settles_sink key x sorted_rev : settles (sink (closer key) x sorted_rev).
Proof.
  induction sorted_rev as [|y r IH]; simpl; [apply settles_ret|].
  apply settles_bind; [apply settles_closer | intros lt].
  destruct lt; [|apply settles_ret].
  apply settles_bind; [exact IH | intros; apply settles_ret].
Qed.

Lemma settles_insertionSort key todo :
  forall sorted_rev, settles (insertionSort (closer key) sorted_rev todo).
Proof.
  induction todo as [|x rest IH]; intros sorted_rev; simpl;
    [apply settles_ret|].
  apply settles_bind; [apply settles_sink | intros; apply IH].
Qed.

Lemma settles_keepNear key dist nodes : settles (keepNear key dist nodes).
Proof.
  induction nodes as [|p rest IH]; simpl; [apply settles_ret|].
  apply settles_bind; [apply settles_loadPeer | intros x].
  apply settles_bind; [exact IH | intros near].
  destruct (_ <=? _)%Z; apply settles_ret.
Qed.

Lemma keepNear_Ret_valid key dist nodes :
  forall h h' l,
    keepNear key dist nodes h = (Ret l, h') -> Forall (validPtr h) nodes.
Proof.
  induction nodes as [|p rest IH]; intros h h' l E; [constructor|].
  simpl in E. apply bind_Ret_inv in E as (x & h1 & E1 & E).
  apply loadPeer_Ret_inv in E1 as (-> & a & -> & Hx).
  apply bind_Ret_inv in E as (near & h2 & E2 & _).
  constructor; [exists a, x; auto | apply (IH _ _ _ E2)].
Qed.

Lemma containsKey_nodes_nil l1 l2 key h :
  Forall (fun p => validPtr h p /\ holdsKey h key p = false) l1 ->
  containsKey_nodes (l1 ++ nilPtr :: l2) key h = (Panic, h).
Proof.
  intros Hl. induction Hl as [|p rest [Hp Hk] Hrest IH]; [reflexivity|].
  destruct Hp as (a & x & -> & Ha). simpl in *.
  rewrite (bind_Ret _ _ h h x (loadPeer_Some h a x Ha)).
  rewrite Ha in Hk. rewrite Hk. exact IH.
Qed.

(** X17: a nil pointer in a table is dereferenced.  On a table with an own
    node, [findNearestNodes] panics as soon as any entry is nil; and
    [containsKey] panics at a nil entry unless an entry before it has the
    key. *)
Theorem nil_entry_panics (h : Heap) (d : DHTPtr) (x : Peer) (key : string) :
  h !! d = Some x ->
  nilPtr ∈ allNodes (Peer_dht x) ->
  (forall o xo,
      firstEntry (Peer_dht x) = ptr o -> h !! o = Some xo ->
      findNearestNodes d key h = (Panic, h)) /\
  (forall l1 l2,
      allNodes (Peer_dht x) = (l1 ++ nilPtr :: l2)%list ->
      Forall (fun p => validPtr h p /\ holdsKey h key p = false) l1 ->
      containsKey d key h = (Panic, h)).
Proof.
  intros Hd Hnil. split.
  - intros o xo Hown Ho.
    pose proof (readonly_findNearestNodes d key h) as Hro.
    destruct (findNearestNodes d key h) as [r h'] eqn:E. simpl in Hro. subst h'.
    f_equal.
    rewrite (findNearestNodes_own h d x o xo key Hd Hown Ho) in E.
    unfold selectNearest, sortPeerSlice, SliceStable, bind in E.
    destruct (insertionSort (closer key) [] (allNodes (Peer_dht x)) h)
      as [[sorted| |] h1] eqn:Es.
    + pose proof (insertionSort_Ret_inv _ _ _ _ _ _ Es) as Hp. simpl in Hp.
      destruct (keepNear key (calculateDistance (Peer_id xo) key) sorted h1)
        as [[near| |] h2] eqn:En.
      * exfalso. apply keepNear_Ret_valid in En.
        rewrite Forall_forall in En.
        destruct (En nilPtr) as (a & y & Ea & _); [|discriminate].
        rewrite Hp. exact Hnil.
      * inversion E. reflexivity.
      * exfalso. apply (settles_keepNear _ _ _ _ _ _ En). reflexivity.
    + inversion E. reflexivity.
    + exfalso. apply (settles_insertionSort _ _ _ _ _ _ Es). reflexivity.
  - intros l1 l2 Hsplit Hl1. unfold containsKey.
    rewrite (bind_Ret _ _ h h _ (loadDHT_Some h d x Hd)).
    rewrite containsKey_buckets_concat.
    change (concat (map Bucket_nodes (DHT_buckets (Peer_dht x))))
      with (allNodes (Peer_dht x)).
    rewrite Hsplit. apply containsKey_nodes_nil. assumption.
Qed.

Lemma nil_entry_panics_witness :
  findNearestNodes 0 "0" holed = (Panic, holed).
Proof.
  apply (nil_entry_panics holed 0%nat (mkNode "4" [[ptr 0]; [nilPtr]]) "0"
           eq_refl)
    with (o := 0%nat) (xo := mkNode "4" [[ptr 0]; [nilPtr]]).
  - vm_compute. apply list_elem_of_further, list_elem_of_here.
  - reflexivity.
  - reflexivity.
Defined.

Lemma getRandomInt_range_witness :
  exists r,
    getRandomInt 5 10 (initial (fun i => (i * 7 + 3)%nat))
    = (Ret r, drawn (initial (fun i => (i * 7 + 3)%nat))) /\
    (5 <= r <= 10)%Z.
Proof.
  apply (getRandomInt_range 5 10 (initial (fun i => (i * 7 + 3)%nat))); lia.
Defined.

Lemma selectRandomElements_spec_witness :
  exists l w' shuffled,
    selectRandomElements ["a"; "b"; "c"; "d"] 3
      (initial (fun i => (i * 7 + 3)%nat)) = (Ret l, w') /\
    shuffled ≡ₚ ["a"; "b"; "c"; "d"] /\
    l = take (Z.to_nat 3) shuffled /\
    length l = Nat.min (Z.to_nat 3) (length ["a"; "b"; "c"; "d"]) /\
    (forall s, s ∈ l -> s ∈ ["a"; "b"; "c"; "d"]) /\
    sameButRand (initial (fun i => (i * 7 + 3)%nat)) w'.
Proof.
  apply (selectRandomElements_spec ["a"; "b"; "c"; "d"] 3
           (initial (fun i => (i * 7 + 3)%nat))). lia.
Defined.

(** ** The fan-out bound at full width *)

(** X19: when the key and the identifiers of all peers parse to numbers of
    at most 63 bits, where [calculateDistance] loses nothing, every list
    that [findNearestNodes] returns has at most two peers and each of them
    is no farther from the key than the own node by the exclusive or of
    the full numbers. *)
Theorem findNearestNodes_full_width_bound (h : Heap) (d : DHTPtr)
    (key : string) (l : list PeerPtr) (h' : Heap) :
  fits63 key ->
  (forall a x, h !! a = Some x -> fits63 (Peer_id x)) ->
  findNearestNodes d key h = (Ret l, h') ->
  (length l <= 2)%nat /\
  forall p, p ∈ l ->
    exists a x o xo,
      p = ptr a /\ h !! a = Some x /\
      findOwnNode d h = (Ret (ptr o), h) /\ h !! o = Some xo /\
      (Z.lxor (SetString (Peer_id x) 16) (SetString key 16)
       <= Z.lxor (SetString (Peer_id xo) 16) (SetString key 16))%Z.
Proof.
  intros Hkey Hids E.
  apply findNearestNodes_Ret_inv in E as (_ & Hlen & Hl).
  split; [assumption|]. intros p Hp.
  destruct (Hl p Hp) as (a & x & o & xo & t & -> & Ha & Hown & Ho & _ & _ & Hd).
  exists a, x, o, xo. repeat split; try assumption.
  rewrite <- (calculateDistance_exact (Peer_id x) key (Hids a x Ha) Hkey).
  rewrite <- (calculateDistance_exact (Peer_id xo) key (Hids o xo Ho) Hkey).
  exact Hd.
Qed.

Lemma findNearestNodes_full_width_bound_witness :
  (length [ptr 1; ptr 2] <= 2)%nat.
Proof.
  apply (findNearestNodes_full_width_bound
           (scenario (mkDHT [mkBucket [ptr 0; ptr 1; ptr 2]]) NewDHT NewDHT)
           0%nat "00000000" [ptr 1; ptr 2]
           (scenario (mkDHT [mkBucket [ptr 0; ptr 1; ptr 2]]) NewDHT NewDHT)).
  - vm_compute. split; [discriminate | reflexivity].
  - apply fits63_scenario.
  - vm_compute. reflexivity.
Defined.
